(** * ValentineProject: the state store, the swipe recogniser and the
      local-storage hook, embedded in Rocq.

    Source embedded here:
      - models/ValentineModel.js: ValentineModel, createInitialState,
        ValidationRules;
      - controllers/ValentineController.js (its text follows the view in
        views/HomePage.jsx): the transition methods;
      - hooks/useSwipe.js: handleTouchStart, handleTouchMove,
        handleTouchEnd, handleMouseUp;
      - hooks/useLocalStorage.js (its text follows the model in
        models/ValentineModel.js): the load-on-start, save-on-change hook;
      - App.jsx: the key under which the state is stored.

    Conventions of the embedding.
      - A JavaScript string is the list of its UTF-16 code units.
      - An integer-valued JavaScript number is a [Z]; arithmetic is exact
        (as it is in JavaScript inside the safe-integer range).  The one
        non-integer value integer arithmetic of this program can produce is
        NaN (remainder by zero), so fields that undergo [%] with a
        data-dependent divisor have type [number] = integer or NaN.
        Negative zero is identified with zero.
      - A controller method is the state updater it hands to [setState];
        a method that returns before calling [setState] is the identity.
      - A handler that would raise a TypeError returns [None].
      - A function that parses a text of the store returns [None] when
        the text holds a number that is no integer: what the code does
        with such a number is not modelled. *)

From Stdlib Require Import ZArith NArith Lia String Ascii DecimalZ.
From stdpp Require Import base decidable option numbers list gmap.

Set Warnings "-register-all".
Open Scope Z_scope.

(* ===================================================================== *)
(** ** JavaScript data *)
(* ===================================================================== *)

Module JS.

(** A string is the list of its UTF-16 code units, each a number below
    65536. *)
Definition jsstring : Type := list N.

(** A string literal of the source made of ASCII characters only. *)
Definition lit (s : string) : jsstring :=
  List.map N_of_ascii (list_ascii_of_string s).

(** [a === b] on two strings. *)
Definition str_eq (a b : jsstring) : bool := bool_decide (a = b).

(** [arr.includes(x)] on an array of strings. *)
Definition includes (arr : list jsstring) (x : jsstring) : bool :=
  existsb (str_eq x) arr.

(** Integer-valued numbers, and NaN. *)
Inductive number : Type :=
| Int (z : Z)
| NaN.

Definition add (a b : number) : number :=
  match a, b with
  | Int x, Int y => Int (x + y)
  | _, _ => NaN
  end.

Definition sub (a b : number) : number :=
  match a, b with
  | Int x, Int y => Int (x - y)
  | _, _ => NaN
  end.

(** [a % b]: the remainder has the sign of the dividend; a zero divisor
    gives NaN (no exception is raised). *)
Definition rem (a b : number) : number :=
  match a, b with
  | Int x, Int y => if y =? 0 then NaN else Int (Z.rem x y)
  | _, _ => NaN
  end.

(** [a === b] on two numbers: NaN is equal to nothing. *)
Definition num_eq (a b : number) : bool :=
  match a, b with
  | Int x, Int y => x =? y
  | _, _ => false
  end.

(** The decimal digits of a numeral, as code units. *)
Fixpoint digits (d : Decimal.uint) : jsstring :=
  match d with
  | Decimal.Nil => []
  | Decimal.D0 d => 48%N :: digits d
  | Decimal.D1 d => 49%N :: digits d
  | Decimal.D2 d => 50%N :: digits d
  | Decimal.D3 d => 51%N :: digits d
  | Decimal.D4 d => 52%N :: digits d
  | Decimal.D5 d => 53%N :: digits d
  | Decimal.D6 d => 54%N :: digits d
  | Decimal.D7 d => 55%N :: digits d
  | Decimal.D8 d => 56%N :: digits d
  | Decimal.D9 d => 57%N :: digits d
  end.

(** [n.toString()] for an integer: decimal digits, a leading minus sign
    when negative. *)
Definition Number_toString (z : Z) : jsstring :=
  match Z.to_int z with
  | Decimal.Pos d => digits d
  | Decimal.Neg d => 45%N :: digits d
  end.

(** JavaScript values, as far as the program handles them. An object is
    the list of its own properties in insertion order. *)
Inductive value : Type :=
| VUndefined
| VNull
| VBool (b : bool)
| VNumber (n : number)
| VString (s : jsstring)
| VArray (elems : list value)
| VObject (props : list (jsstring * value)).

(** ToBoolean. *)
Definition truthy (v : value) : bool :=
  match v with
  | VUndefined | VNull => false
  | VBool b => b
  | VNumber (Int z) => negb (z =? 0)
  | VNumber NaN => false
  | VString s => negb (bool_decide (s = []))
  | VArray _ | VObject _ => true
  end.

(** [a || b]. *)
Definition or (a b : value) : value := if truthy a then a else b.

End JS.

Import JS.

(* ===================================================================== *)
(** ** models/ValentineModel.js *)
(* ===================================================================== *)

Record Photo : Type := mkPhoto {
  id : jsstring;
  url : jsstring;
  caption : jsstring;
  likes : Z;
  isFavorite : bool
}.

Record State : Type := mkState {
  currentView : jsstring;
  photos : list Photo;
  naughtyLevel : Z;
  heartClicks : Z;
  showConfetti : bool;
  currentPhotoIndex : number
}.

(** The three seed captions start with four code units that are not ASCII;
    they are written out, the ASCII remainder is a literal. *)
Definition caption1 : jsstring :=
  [240; 376; 732; 710]%N ++ lit " That time you made my heart race...".
Definition caption2 : jsstring :=
  [240; 376; 8217; 8226]%N ++ lit " You look so good, it should be illegal".
Definition caption3 : jsstring :=
  [240; 376; 8221; 165]%N ++ lit " My personal snack".

Definition ValentineModel : State :=
  {| currentView := lit "home";
     photos :=
       [ {| id := lit "1"; url := lit "/src/assets/photos/DakogKaon.jpg";
            caption := caption1; likes := 0; isFavorite := false |};
         {| id := lit "2"; url := lit "/src/assets/photos/Tabian.jpeg";
            caption := caption2; likes := 0; isFavorite := false |};
         {| id := lit "3"; url := lit "/src/assets/photos/WowGwapa.jpeg";
            caption := caption3; likes := 0; isFavorite := false |} ];
     naughtyLevel := 0;
     heartClicks := 0;
     showConfetti := false;
     currentPhotoIndex := Int 0 |}.

(** [{...ValentineModel, photos: ValentineModel.photos.map(p => ({...p}))}] *)
Definition createInitialState : State :=
  {| currentView := currentView ValentineModel;
     photos := List.map (fun photo => photo) (photos ValentineModel);
     naughtyLevel := naughtyLevel ValentineModel;
     heartClicks := heartClicks ValentineModel;
     showConfetti := showConfetti ValentineModel;
     currentPhotoIndex := currentPhotoIndex ValentineModel |}.

(** [ValidationRules.isValidNaughtyLevel]. *)
Definition isValidNaughtyLevel (level : Z) : bool :=
  (level >=? 0) && (level <=? 100).

(** The object [addPhoto] builds before validation: [url] and [caption]
    come from the caller and may be any value. *)
Record PhotoCandidate : Type := mkCandidate {
  c_id : jsstring;
  c_url : value;
  c_caption : value;
  c_likes : Z;
  c_isFavorite : bool
}.

(** [typeof v === "string"]. *)
Definition typeof_string (v : value) : bool :=
  match v with VString _ => true | _ => false end.

(** [v.length > 0] for a value already known to be a string. *)
Definition length_positive (v : value) : bool :=
  match v with VString s => Z.of_nat (length s) >? 0 | _ => false end.

(** [ValidationRules.isValidPhoto]: the candidate is an object (always, here),
    its [id] is a string (always, by its type), [url] and [caption] are
    strings and [url] is not empty. *)
Definition isValidPhoto (photo : PhotoCandidate) : bool :=
  typeof_string (c_url photo) && typeof_string (c_caption photo)
  && length_positive (c_url photo).

(* ===================================================================== *)
(** ** controllers/ValentineController.js *)
(* ===================================================================== *)

Module Controller.

(** React's [setState(updater)]: the next state is the updater applied to
    the previous one. *)
Definition setState (updater : State -> State) (prevState : State) : State :=
  updater prevState.

Definition validViews : list jsstring :=
  [lit "home"; lit "gallery"; lit "naughty"].

Definition navigateTo (viewName : jsstring) (s : State) : State :=
  if negb (includes validViews viewName) then
    s (* console.error; return *)
  else
    setState (fun prevState =>
      {| currentView := viewName;
         photos := photos prevState;
         naughtyLevel := naughtyLevel prevState;
         heartClicks := heartClicks prevState;
         showConfetti := showConfetti prevState;
         currentPhotoIndex := currentPhotoIndex prevState |}) s.

Definition goBack : State -> State :=
  setState (fun prevState =>
    let previousView := lit "home" in
    let previousView :=
      if str_eq (currentView prevState) (lit "naughty")
      then lit "gallery" else previousView in
    {| currentView := previousView;
       photos := photos prevState;
       naughtyLevel := naughtyLevel prevState;
       heartClicks := heartClicks prevState;
       showConfetti := showConfetti prevState;
       currentPhotoIndex := currentPhotoIndex prevState |}).

Definition likePhoto (photoId : jsstring) : State -> State :=
  setState (fun prevState =>
    let updatedPhotos :=
      List.map (fun photo =>
        if str_eq (id photo) photoId
        then {| id := id photo; url := url photo; caption := caption photo;
                likes := likes photo + 1; isFavorite := isFavorite photo |}
        else photo) (photos prevState) in
    let newNaughtyLevel := Z.min (naughtyLevel prevState + 5) 100 in
    {| currentView := currentView prevState;
       photos := updatedPhotos;
       naughtyLevel := newNaughtyLevel;
       heartClicks := heartClicks prevState + 1;
       showConfetti := showConfetti prevState;
       currentPhotoIndex := currentPhotoIndex prevState |}).

Definition toggleFavorite (photoId : jsstring) : State -> State :=
  setState (fun prevState =>
    {| currentView := currentView prevState;
       photos :=
         List.map (fun photo =>
           if str_eq (id photo) photoId
           then {| id := id photo; url := url photo;
                   caption := caption photo; likes := likes photo;
                   isFavorite := negb (isFavorite photo) |}
           else photo) (photos prevState);
       naughtyLevel := naughtyLevel prevState;
       heartClicks := heartClicks prevState;
       showConfetti := showConfetti prevState;
       currentPhotoIndex := currentPhotoIndex prevState |}).

Definition changePhoto (direction : jsstring) : State -> State :=
  setState (fun prevState =>
    let totalPhotos := Int (Z.of_nat (length (photos prevState))) in
    let newIndex := currentPhotoIndex prevState in
    let newIndex :=
      if str_eq direction (lit "next") then
        rem (add newIndex (Int 1)) totalPhotos
      else if str_eq direction (lit "prev") then
        rem (add (sub newIndex (Int 1)) totalPhotos) totalPhotos
      else newIndex in
    {| currentView := currentView prevState;
       photos := photos prevState;
       naughtyLevel := naughtyLevel prevState;
       heartClicks := heartClicks prevState;
       showConfetti := showConfetti prevState;
       currentPhotoIndex := newIndex |}).

(** What the caller of [addPhoto] passes: an object whose [url] and
    [caption] properties hold any value ([VUndefined] when absent). *)
Record PhotoData : Type := mkPhotoData {
  pd_url : value;
  pd_caption : value
}.

(** The default caption, U+1F495 as a surrogate pair. *)
Definition defaultCaption : jsstring := [55357; 56469]%N.

(** [now] is what [Date.now()] returns during the call. *)
Definition addPhoto (now : Z) (photoData : PhotoData) (s : State) : State :=
  let newPhoto :=
    {| c_id := Number_toString now;
       c_url := pd_url photoData;
       c_caption := JS.or (pd_caption photoData) (VString defaultCaption);
       c_likes := 0;
       c_isFavorite := false |} in
  if negb (isValidPhoto newPhoto) then
    s (* console.error; return *)
  else
    match c_url newPhoto, c_caption newPhoto with
    | VString u, VString c =>
        setState (fun prevState =>
          {| currentView := currentView prevState;
             photos := photos prevState ++
               [ {| id := c_id newPhoto; url := u; caption := c;
                    likes := c_likes newPhoto;
                    isFavorite := c_isFavorite newPhoto |} ];
             naughtyLevel := naughtyLevel prevState;
             heartClicks := heartClicks prevState;
             showConfetti := showConfetti prevState;
             currentPhotoIndex := currentPhotoIndex prevState |}) s
    | _, _ => s (* excluded by isValidPhoto *)
    end.

(** [amount = 10]: an omitted argument takes the default. *)
Definition increaseNaughtyLevel (amount : option Z) : State -> State :=
  let amount := match amount with Some a => a | None => 10 end in
  setState (fun prevState =>
    let newLevel := Z.min (naughtyLevel prevState + amount) 100 in
    let showConfetti :=
      (newLevel >=? 50) && (naughtyLevel prevState <? 50) in
    {| currentView := currentView prevState;
       photos := photos prevState;
       naughtyLevel := newLevel;
       heartClicks := heartClicks prevState;
       showConfetti := showConfetti;
       currentPhotoIndex := currentPhotoIndex prevState |}).

Definition resetNaughtyLevel : State -> State :=
  setState (fun prevState =>
    {| currentView := currentView prevState;
       photos := photos prevState;
       naughtyLevel := 0;
       heartClicks := heartClicks prevState;
       showConfetti := false;
       currentPhotoIndex := currentPhotoIndex prevState |}).

Definition handleHeartClick : State -> State :=
  setState (fun prevState =>
    let newClicks := heartClicks prevState + 1 in
    let newNaughtyLevel := Z.min (naughtyLevel prevState + 3) 100 in
    let showConfetti := num_eq (rem (Int newClicks) (Int 10)) (Int 0) in
    {| currentView := currentView prevState;
       photos := photos prevState;
       naughtyLevel := newNaughtyLevel;
       heartClicks := newClicks;
       showConfetti := showConfetti;
       currentPhotoIndex := currentPhotoIndex prevState |}).

Definition hideConfetti : State -> State :=
  setState (fun prevState =>
    {| currentView := currentView prevState;
       photos := photos prevState;
       naughtyLevel := naughtyLevel prevState;
       heartClicks := heartClicks prevState;
       showConfetti := false;
       currentPhotoIndex := currentPhotoIndex prevState |}).

(** [getMostLikedPhoto]: the sibling method that does guard the empty
    list. [reduce] without a seed starts from the first photo. *)
Definition getMostLikedPhoto (s : State) : option Photo :=
  match photos s with
  | [] => None
  | first :: rest =>
      Some (fold_left (fun max photo =>
              if likes photo >? likes max then photo else max) rest first)
  end.

End Controller.

(* ===================================================================== *)
(** ** hooks/useSwipe.js *)
(* ===================================================================== *)

Module Swipe.

Record Touch : Type := mkTouch { clientX : Z; clientY : Z }.

Record TouchEvent : Type := mkTouchEvent {
  touches : list Touch;
  changedTouches : list Touch
}.

(** The four [useRef] cells of the hook. *)
Record Refs : Type := mkRefs {
  touchStartX : Z;
  touchStartY : Z;
  touchEndX : Z;
  touchEndY : Z
}.

Definition initialRefs : Refs :=
  {| touchStartX := 0; touchStartY := 0; touchEndX := 0; touchEndY := 0 |}.

Section Hook.
(** What a registered callback is; each of the four may be absent. *)
Variable Handler : Type.

Record Callbacks : Type := mkCallbacks {
  onSwipeLeft : option Handler;
  onSwipeRight : option Handler;
  onSwipeUp : option Handler;
  onSwipeDown : option Handler
}.

Variable callbacks : Callbacks.
Variable minSwipeDistance : Z.

(** [e.touches[0]] of an empty list is [undefined], and reading
    [clientX] of it raises: [None]. *)
Definition handleTouchStart (r : Refs) (e : TouchEvent) : option Refs :=
  t ← head (touches e);
  Some {| touchStartX := clientX t; touchStartY := clientY t;
          touchEndX := touchEndX r; touchEndY := touchEndY r |}.

Definition handleTouchMove (r : Refs) (e : TouchEvent) : option Refs :=
  t ← head (touches e);
  Some {| touchStartX := touchStartX r; touchStartY := touchStartY r;
          touchEndX := clientX t; touchEndY := clientY t |}.

(** The result pairs the cells with the handler invoked, if any:
    [callbacks.onSwipeX?.()] invokes the handler when it is present. *)
Definition handleTouchEnd (r : Refs) (e : TouchEvent)
  : option (Refs * option Handler) :=
  t ← head (changedTouches e);
  let r := {| touchStartX := touchStartX r; touchStartY := touchStartY r;
              touchEndX := clientX t; touchEndY := clientY t |} in
  let deltaX := touchEndX r - touchStartX r in
  let deltaY := touchEndY r - touchStartY r in
  let absDeltaX := Z.abs deltaX in
  let absDeltaY := Z.abs deltaY in
  Some (r,
    if absDeltaX >? absDeltaY then
      if absDeltaX >? minSwipeDistance then
        if deltaX >? 0 then onSwipeRight callbacks
        else onSwipeLeft callbacks
      else None
    else
      if absDeltaY >? minSwipeDistance then
        if deltaY >? 0 then onSwipeDown callbacks
        else onSwipeUp callbacks
      else None).

(** [handleMouseUp] of [useSwipeWithMouse], for a drag in progress that
    started at [(startX, startY)] and is released at [(x, y)]. *)
Definition handleMouseUp (startX startY x y : Z) : option Handler :=
  let deltaX := x - startX in
  let deltaY := y - startY in
  let absDeltaX := Z.abs deltaX in
  let absDeltaY := Z.abs deltaY in
  if (absDeltaX >? absDeltaY) && (absDeltaX >? minSwipeDistance) then
    if deltaX >? 0 then onSwipeRight callbacks else onSwipeLeft callbacks
  else if absDeltaY >? minSwipeDistance then
    if deltaY >? 0 then onSwipeDown callbacks else onSwipeUp callbacks
  else None.

End Hook.

Arguments mkCallbacks {Handler}.
Arguments onSwipeLeft {Handler}.
Arguments onSwipeRight {Handler}.
Arguments onSwipeUp {Handler}.
Arguments onSwipeDown {Handler}.
Arguments handleTouchStart r e : assert.
Arguments handleTouchMove r e : assert.
Arguments handleTouchEnd {Handler} callbacks minSwipeDistance r e.
Arguments handleMouseUp {Handler} callbacks minSwipeDistance.

(** The four directions, and the callback record that reports which of
    its slots was invoked. *)
Inductive Direction : Type := Left | Right | Up | Down.

Definition reporting : Callbacks Direction :=
  {| onSwipeLeft := Some Left; onSwipeRight := Some Right;
     onSwipeUp := Some Up; onSwipeDown := Some Down |}.

(** A gesture from [(x0, y0)] to [(x1, y1)]: touch start, then touch end,
    on one finger; the callback fired, [None] when none fires (or when a
    handler raised). *)
Definition touchStartAt (x y : Z) : TouchEvent :=
  {| touches := [ {| clientX := x; clientY := y |} ];
     changedTouches := [ {| clientX := x; clientY := y |} ] |}.

Definition touchEndAt (x y : Z) : TouchEvent :=
  {| touches := []; changedTouches := [ {| clientX := x; clientY := y |} ] |}.

Definition gesture {Handler} (callbacks : Callbacks Handler) (t : Z)
    (r : Refs) (x0 y0 x1 y1 : Z) : option (option Handler) :=
  r1 ← handleTouchStart r (touchStartAt x0 y0);
  out ← handleTouchEnd callbacks t r1 (touchEndAt x1 y1);
  Some (snd out).

End Swipe.

(* ===================================================================== *)
(** ** JSON.stringify and JSON.parse (ECMA-262, 25.5) *)
(* ===================================================================== *)

(** The two built-ins the persistence hook calls, on the values of [JS.value]:
    text is a string of code units. The numbers of [JS.value] are the
    integers, so [parse] gives the value of a text whose number literals
    denote integers, in any notation ([1000], [1e3], [10.00e2]); a text
    that obeys the grammar but holds a number that is no integer ([2.5])
    is [well_formed] and has no value here. What the callers do with such
    a text is not modelled: they return [None]. An object whose keys look
    like array indices is outside the embedding (JavaScript would reorder
    them). *)

Module JSON.

Definition hexdigit (d : N) : N :=
  (if d <? 10 then 48 + d else 87 + d)%N.

(** [\uXXXX] with four lower-case hexadecimal digits. *)
Definition UnicodeEscape (c : N) : jsstring :=
  [92; 117; hexdigit (c / 4096); hexdigit ((c / 256) mod 16);
   hexdigit ((c / 16) mod 16); hexdigit (c mod 16)]%N.

Definition is_leading_surrogate (c : N) : bool :=
  ((55296 <=? c) && (c <=? 56319))%N.

Definition is_trailing_surrogate (c : N) : bool :=
  ((56320 <=? c) && (c <=? 57343))%N.

(** One code unit that is not a surrogate: the short escapes, [\u00XX] for
    the other control characters, the unit itself otherwise. *)
Definition quote_unit (c : N) : jsstring :=
  (if c =? 8 then [92; 98]
   else if c =? 9 then [92; 116]
   else if c =? 10 then [92; 110]
   else if c =? 12 then [92; 102]
   else if c =? 13 then [92; 114]
   else if c =? 34 then [92; 34]
   else if c =? 92 then [92; 92]
   else if c <? 32 then UnicodeEscape c
   else [c])%N.

(** The body of QuoteJSONString, code point by code point: a surrogate pair
    is copied, a lone surrogate is escaped. *)
Fixpoint quote_units (s : jsstring) : jsstring :=
  match s with
  | [] => []
  | c :: t =>
      if is_leading_surrogate c then
        match t with
        | d :: t' =>
            if is_trailing_surrogate d then c :: d :: quote_units t'
            else UnicodeEscape c ++ quote_units t
        | [] => UnicodeEscape c
        end
      else if is_trailing_surrogate c then UnicodeEscape c ++ quote_units t
      else quote_unit c ++ quote_units t
  end.

Definition QuoteJSONString (s : jsstring) : jsstring :=
  34%N :: quote_units s ++ [34%N].

Fixpoint join_comma (parts : list jsstring) : jsstring :=
  match parts with
  | [] => []
  | [x] => x
  | x :: rest => x ++ 44%N :: join_comma rest
  end.

Definition is_undefined (v : value) : bool :=
  match v with VUndefined => true | _ => false end.

(** SerializeJSONProperty for a value that is not [undefined]. Inside an
    array [undefined] is written [null]; a property whose value is
    [undefined] is left out; NaN is written [null]. *)
Fixpoint serialize (v : value) : jsstring :=
  match v with
  | VUndefined => lit "null"
  | VNull => lit "null"
  | VBool true => lit "true"
  | VBool false => lit "false"
  | VNumber (Int z) => Number_toString z
  | VNumber NaN => lit "null"
  | VString s => QuoteJSONString s
  | VArray elems =>
      91%N :: join_comma (List.map serialize elems) ++ [93%N]
  | VObject props =>
      123%N ::
      join_comma
        (flat_map (fun p =>
           match p with
           | (k, e) =>
               if is_undefined e then []
               else [QuoteJSONString k ++ 58%N :: serialize e]
           end) props)
      ++ [125%N]
  end.

(** [JSON.stringify(v)]: [None] is the result [undefined]. *)
Definition stringify (v : value) : option jsstring :=
  if is_undefined v then None else Some (serialize v).

(** *** Parsing *)

Definition is_ws (c : N) : bool :=
  ((c =? 9) || (c =? 10) || (c =? 13) || (c =? 32))%N.

Fixpoint skip_ws (s : jsstring) : jsstring :=
  match s with
  | c :: t => if is_ws c then skip_ws t else s
  | [] => []
  end.

(** Strip the given prefix. *)
Fixpoint expect (prefix s : jsstring) : option jsstring :=
  match prefix, s with
  | [], _ => Some s
  | p :: prefix, c :: s => if (c =? p)%N then expect prefix s else None
  | _ :: _, [] => None
  end.

Definition hexval (c : N) : option N :=
  (if (48 <=? c) && (c <=? 57) then Some (c - 48)
   else if (97 <=? c) && (c <=? 102) then Some (c - 87)
   else if (65 <=? c) && (c <=? 70) then Some (c - 55)
   else None)%N.

(** The character a one-letter escape stands for. *)
Definition unescape (e : N) : option N :=
  (if e =? 34 then Some 34
   else if e =? 92 then Some 92
   else if e =? 47 then Some 47
   else if e =? 98 then Some 8
   else if e =? 102 then Some 12
   else if e =? 110 then Some 10
   else if e =? 114 then Some 13
   else if e =? 116 then Some 9
   else None)%N.

(** The characters of a string literal after its opening quote, up to and
    including the closing quote: the string denoted and the remaining
    text. *)
Fixpoint parse_chars (s : jsstring) : option (jsstring * jsstring) :=
  match s with
  | [] => None
  | c :: t =>
      if (c =? 34)%N then Some ([], t)
      else if (c =? 92)%N then
        match t with
        | [] => None
        | e :: t' =>
            if (e =? 117)%N then
              match t' with
              | h1 :: h2 :: h3 :: h4 :: t'' =>
                  match hexval h1, hexval h2, hexval h3, hexval h4 with
                  | Some a, Some b, Some c, Some d =>
                      match parse_chars t'' with
                      | Some (str, rest) =>
                          Some ((4096 * a + 256 * b + 16 * c + d)%N :: str,
                                rest)
                      | None => None
                      end
                  | _, _, _, _ => None
                  end
              | _ => None
              end
            else
              match unescape e with
              | Some u =>
                  match parse_chars t' with
                  | Some (str, rest) => Some (u :: str, rest)
                  | None => None
                  end
              | None => None
              end
        end
      else if (c <? 32)%N then None
      else
        match parse_chars t with
        | Some (str, rest) => Some (c :: str, rest)
        | None => None
        end
  end.

Definition digit_of (c : N) : option (Decimal.uint -> Decimal.uint) :=
  (if c =? 48 then Some Decimal.D0
   else if c =? 49 then Some Decimal.D1
   else if c =? 50 then Some Decimal.D2
   else if c =? 51 then Some Decimal.D3
   else if c =? 52 then Some Decimal.D4
   else if c =? 53 then Some Decimal.D5
   else if c =? 54 then Some Decimal.D6
   else if c =? 55 then Some Decimal.D7
   else if c =? 56 then Some Decimal.D8
   else if c =? 57 then Some Decimal.D9
   else None)%N.

(** The longest run of decimal digits at the head of the text. *)
Fixpoint read_digits (s : jsstring) : Decimal.uint * jsstring :=
  match s with
  | [] => (Decimal.Nil, [])
  | c :: t =>
      match digit_of c with
      | Some k => let '(d, rest) := read_digits t in (k d, rest)
      | None => (Decimal.Nil, s)
      end
  end.

(** The grammar of an integer part: [0], or a non-zero digit followed by
    digits. *)
Definition int_part (d : Decimal.uint) : bool :=
  match d with
  | Decimal.Nil => false
  | Decimal.D0 Decimal.Nil => true
  | Decimal.D0 _ => false
  | _ => true
  end.

(** The fraction of a number literal: none, or a point and at least one
    digit. *)
Definition read_fraction (s : jsstring) : option (Decimal.uint * jsstring) :=
  match s with
  | c :: t =>
      if (c =? 46)%N then
        match read_digits t with
        | (Decimal.Nil, _) => None
        | (f, rest) => Some (f, rest)
        end
      else Some (Decimal.Nil, s)
  | [] => Some (Decimal.Nil, [])
  end.

(** The exponent of a number literal: none, or [e] or [E], an optional
    sign and at least one digit. *)
Definition read_exponent (s : jsstring) : option (Z * jsstring) :=
  match s with
  | c :: t =>
      if ((c =? 101) || (c =? 69))%N then
        let '(minus, t) :=
          match t with
          | sign :: t' =>
              if (sign =? 45)%N then (true, t')
              else if (sign =? 43)%N then (false, t')
              else (false, t)
          | [] => (false, t)
          end in
        match read_digits t with
        | (Decimal.Nil, _) => None
        | (e, rest) =>
            Some (if minus then - Z.of_uint e else Z.of_uint e, rest)
        end
      else Some (0, s)
  | [] => Some (0, [])
  end.

(** A number literal: sign, integer part, fraction and exponent. *)
Record NumberLiteral : Type := mkNumberLiteral {
  negative : bool;
  integer : Decimal.uint;
  fraction : Decimal.uint;
  exponent : Z
}.

(** The grammar of a number: the literal at the head of the text, and the
    text that follows it. *)
Definition scan_number (s : jsstring) : option (NumberLiteral * jsstring) :=
  let '(minus, s) :=
    match s with
    | c :: t => if (c =? 45)%N then (true, t) else (false, s)
    | [] => (false, s)
    end in
  let '(d, rest) := read_digits s in
  if int_part d then
    match read_fraction rest with
    | Some (f, rest) =>
        match read_exponent rest with
        | Some (e, rest) =>
            Some ({| negative := minus; integer := d; fraction := f;
                     exponent := e |}, rest)
        | None => None
        end
    | None => None
    end
  else None.

(** The mathematical value of a literal, when it is an integer: the
    digits of the integer part and of the fraction, scaled by the
    exponent less the number of digits of the fraction. *)
Definition integer_value (l : NumberLiteral) : option Z :=
  let mantissa := Z.of_uint (Decimal.app (integer l) (fraction l)) in
  let scale := exponent l - Z.of_nat (Decimal.nb_digits (fraction l)) in
  let magnitude :=
    if 0 <=? scale then Some (mantissa * 10 ^ scale)
    else if mantissa mod 10 ^ (- scale) =? 0
         then Some (mantissa / 10 ^ (- scale))
         else None in
  match magnitude with
  | Some m => Some (if negative l then - m else m)
  | None => None
  end.

(** A number literal that denotes an integer; [None] also for a literal
    that denotes another number. *)
Definition parse_number (s : jsstring) : option (value * jsstring) :=
  match scan_number s with
  | Some (l, rest) =>
      match integer_value l with
      | Some z => Some (VNumber (Int z), rest)
      | None => None
      end
  | None => None
  end.

(** CreateDataProperty on an object under construction: a repeated key
    keeps its place and takes the later value. *)
Fixpoint define_property (k : jsstring) (v : value)
    (props : list (jsstring * value)) : list (jsstring * value) :=
  match props with
  | [] => [(k, v)]
  | (k', v') :: rest =>
      if str_eq k' k then (k', v) :: rest
      else (k', v') :: define_property k v rest
  end.

Definition object_of (members : list (jsstring * value)) : value :=
  VObject (fold_left (fun props m => define_property (fst m) (snd m) props)
             members []).

(** One value, with the text that follows it. The recursion is on [fuel],
    which [parse] takes from the length of the text. *)
Fixpoint parse_value (fuel : nat) (s : jsstring) : option (value * jsstring) :=
  match fuel with
  | O => None
  | S fuel =>
      match skip_ws s with
      | [] => None
      | c :: t =>
          if (c =? 110)%N then
            r ← expect (lit "ull") t; Some (VNull, r)
          else if (c =? 116)%N then
            r ← expect (lit "rue") t; Some (VBool true, r)
          else if (c =? 102)%N then
            r ← expect (lit "alse") t; Some (VBool false, r)
          else if (c =? 34)%N then
            match parse_chars t with
            | Some (str, r) => Some (VString str, r)
            | None => None
            end
          else if (c =? 91)%N then
            match expect [93%N] (skip_ws t) with
            | Some r => Some (VArray [], r)
            | None =>
                match parse_elements fuel t with
                | Some (elems, r) => Some (VArray elems, r)
                | None => None
                end
            end
          else if (c =? 123)%N then
            match expect [125%N] (skip_ws t) with
            | Some r => Some (VObject [], r)
            | None =>
                match parse_members fuel t with
                | Some (members, r) => Some (object_of members, r)
                | None => None
                end
            end
          else parse_number (c :: t)
      end
  end

with parse_elements (fuel : nat) (s : jsstring)
  : option (list value * jsstring) :=
  match fuel with
  | O => None
  | S fuel =>
      match parse_value fuel s with
      | None => None
      | Some (v, r) =>
          match skip_ws r with
          | c :: r' =>
              if (c =? 44)%N then
                match parse_elements fuel r' with
                | Some (elems, r'') => Some (v :: elems, r'')
                | None => None
                end
              else if (c =? 93)%N then Some ([v], r')
              else None
          | [] => None
          end
      end
  end

with parse_members (fuel : nat) (s : jsstring)
  : option (list (jsstring * value) * jsstring) :=
  match fuel with
  | O => None
  | S fuel =>
      match expect [34%N] (skip_ws s) with
      | None => None
      | Some t =>
          match parse_chars t with
          | None => None
          | Some (k, r) =>
              match expect [58%N] (skip_ws r) with
              | None => None
              | Some r1 =>
                  match parse_value fuel r1 with
                  | None => None
                  | Some (v, r2) =>
                      match skip_ws r2 with
                      | c :: r3 =>
                          if (c =? 44)%N then
                            match parse_members fuel r3 with
                            | Some (members, r4) => Some ((k, v) :: members, r4)
                            | None => None
                            end
                          else if (c =? 125)%N then Some ([(k, v)], r3)
                          else None
                      | [] => None
                      end
                  end
              end
          end
      end
  end.

(** [JSON.parse(text)] for a text whose numbers are integers: [None] is
    a SyntaxError when the text is not [well_formed], and otherwise a text
    with a number that is no integer. *)
Definition parse (text : jsstring) : option value :=
  match parse_value (S (length text)) text with
  | Some (v, rest) =>
      match skip_ws rest with
      | [] => Some v
      | _ :: _ => None
      end
  | None => None
  end.

(** The grammar alone, numbers of every kind included: the text that
    follows one value. *)
Fixpoint accept_value (fuel : nat) (s : jsstring) : option jsstring :=
  match fuel with
  | O => None
  | S fuel =>
      match skip_ws s with
      | [] => None
      | c :: t =>
          if (c =? 110)%N then expect (lit "ull") t
          else if (c =? 116)%N then expect (lit "rue") t
          else if (c =? 102)%N then expect (lit "alse") t
          else if (c =? 34)%N then
            match parse_chars t with
            | Some (_, r) => Some r
            | None => None
            end
          else if (c =? 91)%N then
            match expect [93%N] (skip_ws t) with
            | Some r => Some r
            | None => accept_elements fuel t
            end
          else if (c =? 123)%N then
            match expect [125%N] (skip_ws t) with
            | Some r => Some r
            | None => accept_members fuel t
            end
          else
            match scan_number (c :: t) with
            | Some (_, r) => Some r
            | None => None
            end
      end
  end

with accept_elements (fuel : nat) (s : jsstring) : option jsstring :=
  match fuel with
  | O => None
  | S fuel =>
      match accept_value fuel s with
      | None => None
      | Some r =>
          match skip_ws r with
          | c :: r' =>
              if (c =? 44)%N then accept_elements fuel r'
              else if (c =? 93)%N then Some r'
              else None
          | [] => None
          end
      end
  end

with accept_members (fuel : nat) (s : jsstring) : option jsstring :=
  match fuel with
  | O => None
  | S fuel =>
      match expect [34%N] (skip_ws s) with
      | None => None
      | Some t =>
          match parse_chars t with
          | None => None
          | Some (_, r) =>
              match expect [58%N] (skip_ws r) with
              | None => None
              | Some r1 =>
                  match accept_value fuel r1 with
                  | None => None
                  | Some r2 =>
                      match skip_ws r2 with
                      | c :: r3 =>
                          if (c =? 44)%N then accept_members fuel r3
                          else if (c =? 125)%N then Some r3
                          else None
                      | [] => None
                      end
                  end
              end
          end
      end
  end.

(** The texts [JSON.parse] accepts; on the others it raises a
    SyntaxError. *)
Definition well_formed (text : jsstring) : bool :=
  match accept_value (S (length text)) text with
  | Some rest => bool_decide (skip_ws rest = [])
  | None => false
  end.

(** The values [stringify] writes without loss: no [undefined], no NaN,
    no repeated key. *)
Fixpoint lossless (v : value) : bool :=
  match v with
  | VUndefined => false
  | VNull | VBool _ | VString _ => true
  | VNumber (Int _) => true
  | VNumber NaN => false
  | VArray elems => forallb lossless elems
  | VObject props =>
      bool_decide (NoDup (List.map fst props))
      && forallb (fun p => match p with (_, e) => lossless e end) props
  end.

End JSON.

(* ===================================================================== *)
(** ** hooks/useLocalStorage.js *)
(* ===================================================================== *)

Module LocalStorage.

(** [window.localStorage]: strings under string keys. *)
Abbreviation Storage := (gmap jsstring jsstring).

(** [getItem(key)]: [None] is [null]. *)
Definition getItem (storage : Storage) (key : jsstring) : option jsstring :=
  storage !! key.

(** [setItem(key, value)]. *)
Definition setItem (storage : Storage) (key value : jsstring) : Storage :=
  <[key := value]> storage.

(** The lazy initialiser of [useState] in [useLocalStorage]: the stored
    item parsed when there is one and it is not the empty string, the
    initial value otherwise and when parsing raises. [None] when the item
    holds a number that is no integer, which [JS.value] does not have. *)
Definition readStoredValue (storage : Storage) (key : jsstring)
    (initialValue : value) : option value :=
  match getItem storage key with
  | Some item =>
      if negb (bool_decide (item = [])) then
        if JSON.well_formed item then JSON.parse item
        else Some initialValue (* catch: console.error *)
      else Some initialValue
  | None => Some initialValue
  end.

(** The effect of [useLocalStorage], run after every change of
    [storedValue]. [setItem] turns the result [undefined] of
    [JSON.stringify] into the string "undefined". *)
Definition saveStoredValue (storage : Storage) (key : jsstring)
    (storedValue : value) : Storage :=
  let valueToStore :=
    match JSON.stringify storedValue with
    | Some text => text
    | None => lit "undefined"
    end in
  setItem storage key valueToStore.

(** The key [App] passes to the hook. *)
Definition appKey : jsstring := lit "valentine-app-state".

End LocalStorage.

(* ===================================================================== *)
(** ** The state as the JavaScript object it is *)
(* ===================================================================== *)

Definition photo_value (p : Photo) : value :=
  VObject [ (lit "id", VString (id p));
            (lit "url", VString (url p));
            (lit "caption", VString (caption p));
            (lit "likes", VNumber (Int (likes p)));
            (lit "isFavorite", VBool (isFavorite p)) ].

Definition state_value (s : State) : value :=
  VObject [ (lit "currentView", VString (currentView s));
            (lit "photos", VArray (List.map photo_value (photos s)));
            (lit "naughtyLevel", VNumber (Int (naughtyLevel s)));
            (lit "heartClicks", VNumber (Int (heartClicks s)));
            (lit "showConfetti", VBool (showConfetti s));
            (lit "currentPhotoIndex", VNumber (currentPhotoIndex s)) ].

(** [serialize] and [deserialize] of the persistence adapter. *)
Definition serialize_state (s : State) : option jsstring :=
  JSON.stringify (state_value s).

Definition deserialize (text : jsstring) : option value :=
  JSON.parse text.

(* ===================================================================== *)
(** ** The transitions, and the states they reach *)
(* ===================================================================== *)

Inductive Operation : Type :=
| NavigateTo (viewName : jsstring)
| GoBack
| LikePhoto (photoId : jsstring)
| ToggleFavorite (photoId : jsstring)
| ChangePhoto (direction : jsstring)
| AddPhoto (now : Z) (photoData : Controller.PhotoData)
| IncreaseNaughtyLevel (amount : option Z)
| ResetNaughtyLevel
| HandleHeartClick
| HideConfetti.

Definition apply_operation (op : Operation) : State -> State :=
  match op with
  | NavigateTo viewName => Controller.navigateTo viewName
  | GoBack => Controller.goBack
  | LikePhoto photoId => Controller.likePhoto photoId
  | ToggleFavorite photoId => Controller.toggleFavorite photoId
  | ChangePhoto direction => Controller.changePhoto direction
  | AddPhoto now photoData => Controller.addPhoto now photoData
  | IncreaseNaughtyLevel amount => Controller.increaseNaughtyLevel amount
  | ResetNaughtyLevel => Controller.resetNaughtyLevel
  | HandleHeartClick => Controller.handleHeartClick
  | HideConfetti => Controller.hideConfetti
  end.

Inductive Reachable : State -> Prop :=
| reach_default : Reachable createInitialState
| reach_step (s : State) (op : Operation) :
    Reachable s -> Reachable (apply_operation op s).

(* ===================================================================== *)
(** ** The decision procedure of the specification, in its own words *)
(* ===================================================================== *)

Module Spec.
Import Swipe.

(** Right if adx > ady and adx > t and dx > 0; Left if adx > ady and
    adx > t and dx < 0; Down if adx <= ady and ady > t and dy > 0; Up if
    adx <= ady and ady > t and dy < 0; no callback otherwise. *)
Definition spec_direction (x0 y0 x1 y1 t : Z) : option Direction :=
  let dx := x1 - x0 in
  let dy := y1 - y0 in
  let adx := Z.abs dx in
  let ady := Z.abs dy in
  if (adx >? ady) && (adx >? t) && (dx >? 0) then Some Right
  else if (adx >? ady) && (adx >? t) && (dx <? 0) then Some Left
  else if (adx <=? ady) && (ady >? t) && (dy >? 0) then Some Down
  else if (adx <=? ady) && (ady >? t) && (dy <? 0) then Some Up
  else None.

(** The callback registered for a direction. *)
Definition registered {Handler} (cb : Callbacks Handler) (d : Direction)
  : option Handler :=
  match d with
  | Left => onSwipeLeft cb
  | Right => onSwipeRight cb
  | Up => onSwipeUp cb
  | Down => onSwipeDown cb
  end.

(** [(index + 1) mod n] and [(index - 1 + n) mod n], mathematical. *)
Definition spec_next (n index : Z) : Z := (index + 1) mod n.
Definition spec_prev (n index : Z) : Z := (index - 1 + n) mod n.

End Spec.

(** A run of the store: the given updaters applied in order. *)
Definition run (ops : list (State -> State)) (s : State) : State :=
  fold_left (fun acc op => op acc) ops s.

(* ===================================================================== *)
(** ** Notions used by the proofs about JSON text and about the store *)
(* ===================================================================== *)

Import JSON.

(** What may follow a value inside a text written by [serialize]: the end,
    a comma, or a closing bracket or brace. *)
Definition terminated (rest : jsstring) : Prop :=
  match rest with
  | [] => True
  | c :: _ => c = 44%N \/ c = 93%N \/ c = 125%N
  end.

(** The number of nodes of a value, which bounds the fuel its text takes. *)
Fixpoint size (v : value) : nat :=
  match v with
  | VArray elems => S (list_sum (List.map (fun e => S (size e)) elems))
  | VObject props =>
      S (list_sum (List.map (fun p => match p with (_, e) => S (size e) end)
                     props))
  | _ => 1
  end.

(** The first code unit of a value's text. *)
Definition value_start (c : N) : Prop :=
  (c = 110 \/ c = 116 \/ c = 102 \/ c = 34 \/ c = 91 \/ c = 123 \/ c = 45 \/
   48 <= c <= 57)%N.

(** The text of one property. *)
Definition member_text (p : jsstring * value) : jsstring :=
  QuoteJSONString (fst p) ++ 58%N :: serialize (snd p).

(** What the induction hypothesis says of one value. *)
Definition reads_back (v : value) : Prop :=
  lossless v = true ->
  forall (fuel : nat) (rest : jsstring),
    (size v <= fuel)%nat -> terminated rest ->
    parse_value fuel (serialize v ++ rest) = Some (v, rest).

(** The invariant of the store that the round trip rests on: the photo
    index is an integer within the photo list. *)
Definition index_in_range (s : State) : Prop :=
  exists i, currentPhotoIndex s = Int i /\
            0 <= i < Z.of_nat (length (photos s)).

(* ===================================================================== *)
(** ** Sample states *)
(* ===================================================================== *)

(** A state with no photo, as [GalleryView] expects it may be. *)
Definition emptyGallery : State :=
  {| currentView := lit "gallery"; photos := [];
     naughtyLevel := 0; heartClicks := 0; showConfetti := false;
     currentPhotoIndex := Int 0 |}.

(** A short session from the default state. *)
Definition sampleSession : State :=
  apply_operation (ChangePhoto (lit "prev"))
    (apply_operation
       (AddPhoto 1700000000000
          {| Controller.pd_url := VString (lit "/src/assets/photos/New.jpg");
             Controller.pd_caption := VUndefined |})
       (apply_operation (IncreaseNaughtyLevel (Some (-5)))
          (apply_operation (LikePhoto (lit "2")) createInitialState))).


(* ===================================================================== *)
(** ** Further code of the same files *)
(* ===================================================================== *)

(** *** controllers/ValentineController.js: derived values *)

(** [getNaughtyCategory]. *)
Definition getNaughtyCategory (s : State) : jsstring :=
  let level := naughtyLevel s in
  if level <? 33 then lit "sweet"
  else if level <? 66 then lit "spicy"
  else lit "extra-spicy".

(** [getFavoritePhotos]. *)
Definition getFavoritePhotos (s : State) : list Photo :=
  List.filter (fun photo => isFavorite photo) (photos s).

(** *** controllers/ValentineController.js: manual persistence *)

Definition controllerKey : jsstring := lit "valentine-state".

(** The object [saveToStorage] writes: three fields of [this.state]. *)
Definition stateToSave (s : State) : value :=
  VObject [ (lit "photos", VArray (List.map photo_value (photos s)));
            (lit "naughtyLevel", VNumber (Int (naughtyLevel s)));
            (lit "heartClicks", VNumber (Int (heartClicks s))) ].

Definition saveToStorage (this_state : State)
    (storage : LocalStorage.Storage) : LocalStorage.Storage :=
  let text :=
    match JSON.stringify (stateToSave this_state) with
    | Some text => text
    | None => lit "undefined"
    end in
  LocalStorage.setItem storage controllerKey text.

(** The own enumerable properties of a value, as object spread copies
    them: those of an object, the indexed elements of an array, the
    indexed code units of a string, none of the other values. *)
Definition own_properties (v : value) : list (jsstring * value) :=
  match v with
  | VObject props => props
  | VArray elems =>
      imap (fun i e => (Number_toString (Z.of_nat i), e)) elems
  | VString s =>
      imap (fun i c => (Number_toString (Z.of_nat i), VString [c])) s
  | _ => []
  end.

(** [{...target, ...source}] for a target whose keys are not array
    indices (a state object): the properties of an object overwrite or
    follow those of the target; index keys, which an array or a string
    brings, are enumerated before the others. *)
Definition spread (target : list (jsstring * value)) (source : value)
  : list (jsstring * value) :=
  match source with
  | VObject props =>
      fold_left (fun acc p => JSON.define_property (fst p) (snd p) acc)
        props target
  | VArray _ | VString _ => own_properties source ++ target
  | _ => target
  end.

(** [loadFromStorage]: the state it sets (the previous state when nothing
    is set) and the value it returns ([VNull] for [null]). [None] when the
    text saved holds a number that is no integer, which [JS.value] does
    not have. *)
Definition loadFromStorage (storage : LocalStorage.Storage)
    (prevState : State) : option (value * value) :=
  match LocalStorage.getItem storage controllerKey with
  | Some saved =>
      if negb (bool_decide (saved = [])) then
        if JSON.well_formed saved then
          match JSON.parse saved with
          | Some parsed =>
              Some (VObject
                      (spread (own_properties (state_value prevState)) parsed),
                    parsed)
          | None => None
          end
        else Some (state_value prevState, VNull) (* catch: console.error *)
      else Some (state_value prevState, VNull)
  | None => Some (state_value prevState, VNull)
  end.

(** [clearStorage]. *)
Definition clearStorage (storage : LocalStorage.Storage)
  : LocalStorage.Storage :=
  delete controllerKey storage.

(** *** hooks/useLocalStorage.js: synchronisation *)

(** A [storage] event: the key is [null] when the whole store was
    cleared, the new value is [null] when the key was removed. *)
Record StorageEvent : Type := mkStorageEvent {
  ev_key : option jsstring;
  ev_newValue : option jsstring
}.

(** [handleStorageChange] of [useLocalStorageSync]: the stored value after
    the event. [None] when the new text holds a number that is no integer,
    which [JS.value] does not have. *)
Definition handleStorageChange (key : jsstring) (e : StorageEvent)
    (storedValue : value) : option value :=
  match ev_key e, ev_newValue e with
  | Some k, Some newValue =>
      if str_eq k key then
        if JSON.well_formed newValue then JSON.parse newValue
        else Some storedValue (* catch: console.error *)
      else Some storedValue
  | _, _ => Some storedValue
  end.

(** The event the other tabs receive when one tab runs the saving effect
    of the hook. *)
Definition savedEvent (key : jsstring) (storedValue : value) : StorageEvent :=
  {| ev_key := Some key;
     ev_newValue :=
       Some (match JSON.stringify storedValue with
             | Some text => text
             | None => lit "undefined"
             end) |}.

(** *** models/ValentineModel.js: sanitizeCaption *)

(** WhiteSpace and LineTerminator code units, which [trim] strips. *)
Definition is_white_space (c : N) : bool :=
  ((c =? 9) || (c =? 10) || (c =? 11) || (c =? 12) || (c =? 13) || (c =? 32)
   || (c =? 160) || (c =? 5760) || ((8192 <=? c) && (c <=? 8202))
   || (c =? 8232) || (c =? 8233) || (c =? 8239) || (c =? 8287)
   || (c =? 12288) || (c =? 65279))%N.

Fixpoint trimStart (s : jsstring) : jsstring :=
  match s with
  | c :: t => if is_white_space c then trimStart t else s
  | [] => []
  end.

Definition trimEnd (s : jsstring) : jsstring := rev (trimStart (rev s)).

Definition trim (s : jsstring) : jsstring := trimEnd (trimStart s).

(** [caption.trim().slice(0, 200)]. *)
Definition sanitizeCaption (caption : jsstring) : jsstring :=
  take 200 (trim caption).

(** *** hooks/useSwipe.js: sequences of events, and the mouse *)

(** The events an element with the touch handlers receives. *)
Inductive TouchStep : Type :=
| TouchStart (e : Swipe.TouchEvent)
| TouchMove (e : Swipe.TouchEvent)
| TouchEnd (e : Swipe.TouchEvent).

(** One event through the handler attached for it: the cells afterwards
    and the callback invoked, if any; [None] when the handler raises. *)
Definition touchStep {Handler} (callbacks : Swipe.Callbacks Handler)
    (minSwipeDistance : Z) (r : Swipe.Refs) (ev : TouchStep)
  : option (Swipe.Refs * option Handler) :=
  match ev with
  | TouchStart e => r' ← Swipe.handleTouchStart r e; Some (r', None)
  | TouchMove e => r' ← Swipe.handleTouchMove r e; Some (r', None)
  | TouchEnd e => Swipe.handleTouchEnd callbacks minSwipeDistance r e
  end.

(** A sequence of events: the cells at the end and the callbacks invoked,
    in order; [None] as soon as a handler raises. *)
Fixpoint touchSteps {Handler} (callbacks : Swipe.Callbacks Handler)
    (minSwipeDistance : Z) (r : Swipe.Refs) (evs : list TouchStep)
  : option (Swipe.Refs * list Handler) :=
  match evs with
  | [] => Some (r, [])
  | ev :: evs =>
      out ← touchStep callbacks minSwipeDistance r ev;
      rest ← touchSteps callbacks minSwipeDistance (fst out) evs;
      Some (fst rest,
            match snd out with
            | Some h => h :: snd rest
            | None => snd rest
            end)
  end.

(** The cells of [useSwipeWithMouse]. *)
Record MouseRefs : Type := mkMouseRefs {
  startX : Z;
  startY : Z;
  isDragging : bool
}.

Definition initialMouseRefs : MouseRefs :=
  {| startX := 0; startY := 0; isDragging := false |}.

Inductive MouseStep : Type :=
| MouseDown (x y : Z)
| MouseMove (x y : Z)
| MouseUp (x y : Z).

(** [onMouseDown], [onMouseMove] and [onMouseUp] of [useSwipeWithMouse]:
    [handleMouseUp] returns at once when no drag is in progress, and ends
    the drag otherwise. *)
Definition mouseStep {Handler} (callbacks : Swipe.Callbacks Handler)
    (minSwipeDistance : Z) (r : MouseRefs) (ev : MouseStep)
  : MouseRefs * option Handler :=
  match ev with
  | MouseDown x y => ({| startX := x; startY := y; isDragging := true |}, None)
  | MouseMove _ _ => (r, None)
  | MouseUp x y =>
      if negb (isDragging r) then (r, None)
      else ({| startX := startX r; startY := startY r; isDragging := false |},
            Swipe.handleMouseUp callbacks minSwipeDistance
              (startX r) (startY r) x y)
  end.

Fixpoint mouseSteps {Handler} (callbacks : Swipe.Callbacks Handler)
    (minSwipeDistance : Z) (r : MouseRefs) (evs : list MouseStep)
  : MouseRefs * list Handler :=
  match evs with
  | [] => (r, [])
  | ev :: evs =>
      let out := mouseStep callbacks minSwipeDistance r ev in
      let rest := mouseSteps callbacks minSwipeDistance (fst out) evs in
      (fst rest,
       match snd out with
       | Some h => h :: snd rest
       | None => snd rest
       end)
  end.

(** *** App.jsx and views/GalleryView.jsx: the wiring *)

(** The view [renderView] shows. *)
Inductive Screen : Type :=
| HomeScreen
| GalleryScreen
| NaughtyCardScreen
| FallbackHomeScreen.

(** [renderView]: the [switch] on [state.currentView]. *)
Definition renderView (s : State) : Screen :=
  if str_eq (currentView s) (lit "home") then HomeScreen
  else if str_eq (currentView s) (lit "gallery") then GalleryScreen
  else if str_eq (currentView s) (lit "naughty") then NaughtyCardScreen
  else FallbackHomeScreen.

(** The callbacks [App] hands to the views. *)
Definition onStart : State -> State := Controller.navigateTo (lit "gallery").
Definition onNext : State -> State := Controller.changePhoto (lit "next").
Definition onPrev : State -> State := Controller.changePhoto (lit "prev").
Definition onLike (photoId : jsstring) : State -> State :=
  Controller.likePhoto photoId.
Definition onToggleFavorite (photoId : jsstring) : State -> State :=
  Controller.toggleFavorite photoId.
Definition galleryOnClose : State -> State :=
  Controller.navigateTo (lit "home").
Definition onOpenNaughty : State -> State :=
  Controller.navigateTo (lit "naughty").
Definition naughtyOnClose : State -> State :=
  Controller.navigateTo (lit "gallery").
Definition onIncreaseNaughty (amount : Z) : State -> State :=
  Controller.increaseNaughtyLevel (Some amount).
Definition onHeartClick : State -> State := Controller.handleHeartClick.

(** The callbacks [GalleryView] registers with [useSwipe], with the
    threshold 50; no callback for a swipe down. *)
Definition galleryCallbacks : Swipe.Callbacks (State -> State) :=
  {| Swipe.onSwipeLeft := Some onNext;
     Swipe.onSwipeRight := Some onPrev;
     Swipe.onSwipeUp := Some onOpenNaughty;
     Swipe.onSwipeDown := None |}.

(** A one-finger gesture on the photo of the gallery. With no photo the
    view returns its empty page, which has no touch handler. *)
Definition galleryGesture (s : State) (x0 y0 x1 y1 : Z) : State :=
  if bool_decide (photos s = []) then s
  else
    match Swipe.gesture galleryCallbacks 50 Swipe.initialRefs x0 y0 x1 y1 with
    | Some (Some handler) => handler s
    | _ => s
    end.

(** [isFirstPhoto] and [isLastPhoto] of [GalleryView]. *)
Definition isFirstPhoto (s : State) : bool :=
  num_eq (currentPhotoIndex s) (Int 0).

Definition isLastPhoto (s : State) : bool :=
  num_eq (currentPhotoIndex s)
    (sub (Int (Z.of_nat (length (photos s)))) (Int 1)).

(** A click on the Previous and on the Next button: a disabled button
    does not call its handler. *)
Definition clickPrev (s : State) : State :=
  if isFirstPhoto s then s else onPrev s.

Definition clickNext (s : State) : State :=
  if isLastPhoto s then s else onNext s.

(** [photos[currentIndex]]: [None] is [undefined]. *)
Definition currentPhoto (s : State) : option Photo :=
  match currentPhotoIndex s with
  | Int i => if i <? 0 then None else photos s !! Z.to_nat i
  | NaN => None
  end.

(** [handleDoubleTap] and the Like button: [onLike(currentPhoto.id)];
    [None] when there is no current photo and reading its id raises. *)
Definition handleDoubleTap (s : State) : option State :=
  p ← currentPhoto s; Some (onLike (id p) s).

(** *** views/NaughtyCardView.jsx *)

(** [getCategoryLabel]. *)
Definition getCategoryLabel (level : Z) : jsstring :=
  if level <? 33 then [55357; 56839]%N ++ lit " Sweet & Innocent"
  else if level <? 66 then [55357; 56847]%N ++ lit " Getting Spicy"
  else [55357; 56613]%N ++ lit " EXTRA Naughty".

(** The local state of the card that its handlers set to fixed values
    (the message, the emoji and the question are drawn at random and are
    left out). *)
Record CardState : Type := mkCardState {
  isRevealed : bool;
  selectedAnswer : option jsstring
}.

(** The four handlers of the card. *)
Inductive CardAction : Type :=
| Reveal
| NewMessage
| AnswerSelect (answer : jsstring)
| HeartSpam.

(** [handleReveal], [handleNewMessage], [handleAnswerSelect] and
    [handleHeartSpam]: the local state and the app state afterwards. *)
Definition cardStep (a : CardAction) (c : CardState) (s : State)
  : CardState * State :=
  match a with
  | Reveal =>
      ({| isRevealed := true; selectedAnswer := selectedAnswer c |},
       onIncreaseNaughty 10 s)
  | NewMessage =>
      ({| isRevealed := false; selectedAnswer := None |},
       onIncreaseNaughty 5 s)
  | AnswerSelect answer =>
      ({| isRevealed := isRevealed c; selectedAnswer := Some answer |},
       onIncreaseNaughty 3 s)
  | HeartSpam => (c, onHeartClick s)
  end.

Definition cardSteps (actions : list CardAction) (c : CardState) (s : State)
  : CardState * State :=
  fold_left (fun acc a => cardStep a (fst acc) (snd acc)) actions (c, s).

(* ===================================================================== *)
(** ** Notions used by the further properties *)
(* ===================================================================== *)

(** The operations of a list applied in order. *)
Definition runOps (ops : list Operation) (s : State) : State :=
  fold_left (fun acc op => apply_operation op acc) ops s.

(** The sum of the likes of the photos. *)
Definition totalLikes (l : list Photo) : Z :=
  fold_right (fun p acc => likes p + acc) 0 l.

(** What of a photo no transition changes. *)
Definition identity (p : Photo) : jsstring * jsstring * jsstring :=
  (id p, url p, caption p).

(** An operation whose [increaseNaughtyLevel] amount, if it has one, is
    omitted or not negative. *)
Definition non_negative_amount (op : Operation) : Prop :=
  match op with
  | IncreaseNaughtyLevel (Some a) => 0 <= a
  | _ => True
  end.

(** The string is empty or its first code unit is not white space. *)
Definition clean_start (s : jsstring) : Prop :=
  match s with
  | c :: _ => is_white_space c = false
  | [] => True
  end.

(** *** models/NaughtyMessages.js: createCustomMessage *)

(** The text the pattern [/{name}/g] matches. *)
Definition placeholder : jsstring := lit "{name}".

(** GetSubstitution for a pattern without capture group: in the
    replacement text [$$] stands for a dollar sign, [$&] for the text
    matched, [$`] for the text before the match and [$'] for the text
    after it; any other dollar sign stands for itself. *)
Fixpoint GetSubstitution (matched before after replacement : jsstring)
  : jsstring :=
  match replacement with
  | [] => []
  | c :: rest =>
      if (c =? 36)%N then
        match rest with
        | d :: rest' =>
            if (d =? 36)%N then
              36%N :: GetSubstitution matched before after rest'
            else if (d =? 38)%N then
              matched ++ GetSubstitution matched before after rest'
            else if (d =? 96)%N then
              before ++ GetSubstitution matched before after rest'
            else if (d =? 39)%N then
              after ++ GetSubstitution matched before after rest'
            else 36%N :: GetSubstitution matched before after rest
        | [] => [36%N]
        end
      else c :: GetSubstitution matched before after rest
  end.

(** [s.replace(/{name}/g, replacement)] from a position on: [before] is
    the text already passed, [s] the text still to scan. *)
Fixpoint replace_placeholders (replacement before s : jsstring) : jsstring :=
  match s with
  | [] => []
  | c :: t =>
      match t with
      | c1 :: c2 :: c3 :: c4 :: c5 :: rest =>
          if str_eq [c; c1; c2; c3; c4; c5] placeholder then
            GetSubstitution placeholder before rest replacement
            ++ replace_placeholders replacement (before ++ placeholder) rest
          else c :: replace_placeholders replacement (before ++ [c]) t
      | _ => c :: replace_placeholders replacement (before ++ [c]) t
      end
  end.

(** [createCustomMessage]. *)
Definition createCustomMessage (name template : jsstring) : jsstring :=
  replace_placeholders name [] template.


(* ===================================================================== *)
(** * Properties *)
(* ===================================================================== *)

Import Controller.

(** ** Helper facts *)

Lemma str_eq_true (a b : jsstring) : str_eq a b = true <-> a = b.
Proof. unfold str_eq. apply bool_decide_eq_true. Qed.

Lemma str_eq_false (a b : jsstring) : str_eq a b = false <-> a <> b.
Proof. unfold str_eq. apply bool_decide_eq_false. Qed.

Lemma includes_In (arr : list jsstring) (x : jsstring) :
  includes arr x = true <-> In x arr.
Proof.
  unfold includes. rewrite existsb_exists. split.
  - intros (y & Hy & E). apply str_eq_true in E. now subst.
  - intros H. exists x. split; [assumption | now apply str_eq_true].
Qed.

(** On a non-negative dividend and a positive divisor, JavaScript's [%]
    is the mathematical [mod]. *)
Lemma rem_Int_mod (a n : Z) :
  0 <= a -> 0 < n -> rem (Int a) (Int n) = Int (a mod n).
Proof.
  intros Ha Hn. unfold rem.
  destruct (Z.eqb_spec n 0) as [->|_]; [lia|].
  now rewrite Z.rem_mod_nonneg by lia.
Qed.

(** A photo whose id differs from the one looked for is left alone by the
    map in [likePhoto]. *)
Lemma map_like_no_match (photoId : jsstring) (l : list Photo) :
  Forall (fun photo => id photo <> photoId) l ->
  List.map (fun photo =>
    if str_eq (id photo) photoId
    then {| id := id photo; url := url photo; caption := caption photo;
            likes := likes photo + 1; isFavorite := isFavorite photo |}
    else photo) l = l.
Proof.
  induction 1 as [|p l Hp _ IH]; simpl; [reflexivity|].
  apply str_eq_false in Hp. rewrite Hp. now f_equal.
Qed.

(** One step of [changePhoto] on a non-empty gallery with the index in
    range. *)
Lemma changePhoto_step (direction : jsstring) (s : State) (i : Z) :
  currentPhotoIndex s = Int i ->
  0 <= i < Z.of_nat (length (photos s)) ->
  photos (changePhoto direction s) = photos s /\
  exists j, currentPhotoIndex (changePhoto direction s) = Int j /\
            0 <= j < Z.of_nat (length (photos s)).
Proof.
  intros Hi Hr. split; [reflexivity|].
  unfold changePhoto, setState. simpl. rewrite Hi.
  set (n := Z.of_nat (length (photos s))) in *.
  destruct (str_eq direction (lit "next")).
  - exists ((i + 1) mod n). simpl add. rewrite rem_Int_mod by lia.
    split; [reflexivity | apply Z.mod_pos_bound; lia].
  - destruct (str_eq direction (lit "prev")).
    + exists ((i - 1 + n) mod n). simpl add.
      rewrite rem_Int_mod by lia.
      split; [reflexivity | apply Z.mod_pos_bound; lia].
    + exists i. now split.
Qed.

Lemma changePhoto_sequence (dirs : list jsstring) :
  forall (s : State) (i : Z),
    currentPhotoIndex s = Int i ->
    0 <= i < Z.of_nat (length (photos s)) ->
    let s' := run (List.map changePhoto dirs) s in
    photos s' = photos s /\
    exists j, currentPhotoIndex s' = Int j /\
              0 <= j < Z.of_nat (length (photos s)).
Proof.
  induction dirs as [|d dirs IH]; intros s i Hi Hr; simpl.
  - split; [reflexivity|]. now exists i.
  - destruct (changePhoto_step d s i Hi Hr) as (Hp & j & Hj & Hjr).
    rewrite <- Hp in Hjr.
    destruct (IH (changePhoto d s) j Hj Hjr) as (Hp' & k & Hk & Hkr).
    unfold run in *. simpl. rewrite Hp', Hp in *. split; [reflexivity|].
    now exists k.
Qed.

(** [n % 10 === 0] is divisibility by ten, for negative [n] too. *)
Lemma rem10_divide (n : Z) :
  num_eq (rem (Int n) (Int 10)) (Int 0) = true <-> (10 | n).
Proof.
  simpl. rewrite Z.eqb_eq. split.
  - intros H. apply Z.rem_divide; [lia | assumption].
  - intros H. apply Z.rem_divide in H; [assumption | lia].
Qed.

Lemma handleHeartClick_iter_clicks (k : nat) (s : State) :
  heartClicks (Nat.iter k handleHeartClick s) = heartClicks s + Z.of_nat k.
Proof.
  induction k as [|k IH]; [simpl; lia|].
  rewrite Nat.iter_succ. unfold handleHeartClick at 1, setState. simpl.
  rewrite IH. lia.
Qed.

(** ** C1: the naughty level stays below 100, and above 0 for increases *)

(** C1 (as stated, refuted). From the default state, whose level is 0,
    [increaseNaughtyLevel(-1)] gives the level -1: only [Math.min] is
    applied, there is no lower clamp. *)
Lemma C1_negative_amount_counterexample :
  0 <= naughtyLevel createInitialState <= 100 /\
  naughtyLevel (increaseNaughtyLevel (Some (-1)) createInitialState) = -1 /\
  ~ (0 <= naughtyLevel (increaseNaughtyLevel (Some (-1)) createInitialState)
       <= 100).
Proof. cbn. repeat split; lia. Qed.

(** C1 (amended). From a level in [0, 100], [increaseNaughtyLevel(amount)]
    never gives a level above 100, for every integer amount and for the
    default amount; the new level is at least 0 exactly when
    [naughtyLevel + amount] is, hence for every amount >= 0. *)
Theorem C1_increaseNaughtyLevel_bounds (s : State) (amount : option Z) :
  0 <= naughtyLevel s <= 100 ->
  let a := default 10 amount in
  let s' := increaseNaughtyLevel amount s in
  naughtyLevel s' <= 100 /\
  (0 <= naughtyLevel s' <-> 0 <= naughtyLevel s + a) /\
  (0 <= a -> 0 <= naughtyLevel s' <= 100).
Proof.
  intros H a s'. subst a s'.
  unfold increaseNaughtyLevel, setState. destruct amount as [a|]; simpl; lia.
Qed.

Lemma C1_increaseNaughtyLevel_bounds_witness :
  0 <= naughtyLevel
         (increaseNaughtyLevel (Some 10)
            (increaseNaughtyLevel (Some 95) createInitialState)) <= 100.
Proof.
  apply (C1_increaseNaughtyLevel_bounds
           (increaseNaughtyLevel (Some 95) createInitialState) (Some 10));
    cbn; lia.
Defined.

(** ** C2: the empty gallery *)

Lemma changePhoto_empty_next (s : State) :
  photos s = [] -> currentPhotoIndex (changePhoto (lit "next") s) = NaN.
Proof.
  intros H. unfold changePhoto, setState. simpl. rewrite H. simpl.
  now destruct (currentPhotoIndex s).
Qed.

Lemma changePhoto_empty_prev (s : State) :
  photos s = [] -> currentPhotoIndex (changePhoto (lit "prev") s) = NaN.
Proof.
  intros H. unfold changePhoto, setState. simpl. rewrite H. simpl.
  now destruct (currentPhotoIndex s).
Qed.

(** C2 (the code at the failing input). On a state whose photo list is
    empty, [changePhoto] does not short-circuit: for "next" and for "prev"
    alike it takes the remainder by zero and stores NaN in
    [currentPhotoIndex], which was the integer 0 before; the sibling method
    [getMostLikedPhoto] does test for the empty list. *)
Theorem C2_changePhoto_empty_gallery_NaN :
  currentPhotoIndex emptyGallery = Int 0 /\
  currentPhotoIndex (changePhoto (lit "next") emptyGallery) = NaN /\
  currentPhotoIndex (changePhoto (lit "prev") emptyGallery) = NaN /\
  getMostLikedPhoto emptyGallery = None.
Proof. repeat split. Qed.

(** ** C3: the touch-end classifier *)

Import Swipe Spec.

(** The classifier in closed form: what [handleTouchEnd] invokes after a
    touch start at [(x0, y0)], for any threshold. *)
Lemma gesture_unfold {Handler} (cb : Callbacks Handler) (t : Z) (r : Refs)
    (x0 y0 x1 y1 : Z) :
  gesture cb t r x0 y0 x1 y1 =
  Some (if Z.abs (x1 - x0) >? Z.abs (y1 - y0) then
          if Z.abs (x1 - x0) >? t then
            if x1 - x0 >? 0 then onSwipeRight cb else onSwipeLeft cb
          else None
        else
          if Z.abs (y1 - y0) >? t then
            if y1 - y0 >? 0 then onSwipeDown cb else onSwipeUp cb
          else None).
Proof. reflexivity. Qed.

Ltac cases_on_comparisons :=
  repeat match goal with
  | |- context [?a >? ?b] => destruct (Z.gtb_spec a b)
  | |- context [?a <? ?b] => destruct (Z.ltb_spec a b)
  | |- context [?a <=? ?b] => destruct (Z.leb_spec a b)
  end; simpl; try reflexivity; try lia.

(** The mouse handler of [useSwipeWithMouse] classifies a drag as the touch
    handlers classify a gesture. *)
Lemma handleMouseUp_gesture {Handler} (cb : Callbacks Handler) (t : Z)
    (r : Refs) (x0 y0 x1 y1 : Z) :
  Some (handleMouseUp cb t x0 y0 x1 y1) = gesture cb t r x0 y0 x1 y1.
Proof.
  rewrite gesture_unfold. unfold handleMouseUp. f_equal.
  cases_on_comparisons.
Qed.

(** C3 (as stated, refuted). With the threshold -1, a touch that starts
    and ends at (100,100) has adx = ady = 0 > -1 and dy = 0: the code takes
    the vertical branch and its [else] arm fires Up, where the stated
    procedure (Up only if dy < 0) selects no callback. *)
Lemma C3_negative_threshold_counterexample :
  gesture reporting (-1) initialRefs 100 100 100 100 = Some (Some Up) /\
  spec_direction 100 100 100 100 (-1) = None.
Proof. split; reflexivity. Qed.

(** C3 (amended). For every threshold t >= 0, every gesture from (x0,y0)
    to (x1,y1), whatever the cells held before and whichever callbacks are
    registered, [handleTouchEnd] raises nothing and invokes exactly the
    callback registered for the direction the stated procedure selects
    (none when it selects none, or when that slot is empty); an exact tie
    adx = ady is classified on the vertical axis (Down, Up or nothing), and
    a gesture with adx <= t and ady <= t fires nothing. *)
Theorem C3_handleTouchEnd_classifies {Handler} (cb : Callbacks Handler)
    (t : Z) (r : Refs) (x0 y0 x1 y1 : Z) :
  0 <= t ->
  gesture cb t r x0 y0 x1 y1 =
    Some (d ← spec_direction x0 y0 x1 y1 t; registered cb d) /\
  (Z.abs (x1 - x0) = Z.abs (y1 - y0) ->
   gesture cb t r x0 y0 x1 y1 =
     Some (if Z.abs (y1 - y0) >? t
           then if y1 - y0 >? 0 then onSwipeDown cb else onSwipeUp cb
           else None)) /\
  (Z.abs (x1 - x0) <= t -> Z.abs (y1 - y0) <= t ->
   gesture cb t r x0 y0 x1 y1 = Some None).
Proof.
  intros Ht. rewrite gesture_unfold. split; [|split].
  - unfold spec_direction. f_equal. cases_on_comparisons.
  - intros Htie. f_equal. cases_on_comparisons.
  - intros Hx Hy. f_equal. cases_on_comparisons.
Qed.

Lemma C3_handleTouchEnd_classifies_witness :
  gesture reporting 50 initialRefs 100 100 40 100 = Some (Some Left) /\
  gesture reporting 50 initialRefs 100 100 100 100 = Some None /\
  gesture reporting 50 initialRefs 100 100 100 151 = Some (Some Down) /\
  gesture reporting 50 initialRefs 100 100 160 160 = Some (Some Down).
Proof.
  split; [|split; [|split]].
  - exact (proj1 (C3_handleTouchEnd_classifies reporting 50 initialRefs
                    100 100 40 100 ltac:(lia))).
  - exact (proj1 (C3_handleTouchEnd_classifies reporting 50 initialRefs
                    100 100 100 100 ltac:(lia))).
  - exact (proj1 (C3_handleTouchEnd_classifies reporting 50 initialRefs
                    100 100 100 151 ltac:(lia))).
  - exact (proj1 (C3_handleTouchEnd_classifies reporting 50 initialRefs
                    100 100 160 160 ltac:(lia))).
Defined.

(** ** C4: liking a photo that does not exist *)

(** C4. When no photo of the state has the given id, [likePhoto(id)]
    returns the same photo list (same photos, same likes) and still adds 1
    to [heartClicks] and sets [naughtyLevel] to
    [min(naughtyLevel + 5, 100)]. *)
Theorem C4_likePhoto_unknown_id (s : State) (photoId : jsstring) :
  Forall (fun photo => id photo <> photoId) (photos s) ->
  photos (likePhoto photoId s) = photos s /\
  heartClicks (likePhoto photoId s) = heartClicks s + 1 /\
  naughtyLevel (likePhoto photoId s) = Z.min (naughtyLevel s + 5) 100.
Proof.
  intros H. unfold likePhoto, setState. simpl.
  split; [now apply map_like_no_match | split; reflexivity].
Qed.

Lemma C4_likePhoto_unknown_id_witness :
  photos (likePhoto (lit "4") createInitialState) = photos createInitialState /\
  heartClicks (likePhoto (lit "4") createInitialState) = 1 /\
  naughtyLevel (likePhoto (lit "4") createInitialState) = 5.
Proof.
  apply (C4_likePhoto_unknown_id createInitialState (lit "4")).
  cbn. repeat constructor; discriminate.
Defined.

(** ** C5: heart clicks *)

(** C5. [handleHeartClick()] adds 1 to [heartClicks], sets [naughtyLevel]
    to [min(naughtyLevel + 3, 100)], and sets [showConfetti] to true if and
    only if the new [heartClicks] is a multiple of 10. From
    [heartClicks = 0], after k consecutive calls with 1 <= k <= 10 the flag
    is true exactly for k = 10. *)
Theorem C5_handleHeartClick (s : State) :
  (heartClicks (handleHeartClick s) = heartClicks s + 1 /\
   naughtyLevel (handleHeartClick s) = Z.min (naughtyLevel s + 3) 100 /\
   (showConfetti (handleHeartClick s) = true <->
    (10 | heartClicks (handleHeartClick s)))) /\
  (heartClicks s = 0 ->
   forall k : nat, (1 <= k <= 10)%nat ->
     showConfetti (Nat.iter k handleHeartClick s) = bool_decide (k = 10%nat)).
Proof.
  split.
  - split; [reflexivity | split; [reflexivity|]].
    unfold handleHeartClick, setState; cbn [showConfetti heartClicks].
    apply rem10_divide.
  - intros H0 k Hk. destruct k as [|k]; [lia|].
    rewrite Nat.iter_succ. unfold handleHeartClick at 1, setState.
    cbn [showConfetti]. rewrite handleHeartClick_iter_clicks, H0.
    assert (Hc : (k = 0 \/ k = 1 \/ k = 2 \/ k = 3 \/ k = 4 \/ k = 5 \/
                  k = 6 \/ k = 7 \/ k = 8 \/ k = 9)%nat) by lia.
    repeat (destruct Hc as [-> | Hc]; [reflexivity|]). now subst k.
Qed.

Lemma C5_handleHeartClick_witness :
  showConfetti (Nat.iter 9 handleHeartClick createInitialState) = false /\
  showConfetti (Nat.iter 10 handleHeartClick createInitialState) = true.
Proof.
  split.
  - apply (proj2 (C5_handleHeartClick createInitialState) eq_refl 9%nat). lia.
  - apply (proj2 (C5_handleHeartClick createInitialState) eq_refl 10%nat). lia.
Defined.

(** ** C6: navigation *)

(** C6. [navigateTo(view)] is a total function of the state (it raises
    nothing). With a view outside home, gallery, naughty it returns the
    state it was given, every field included; with one of the three it sets
    [currentView] to it and changes no other field. *)
Theorem C6_navigateTo (s : State) (viewName : jsstring) :
  (~ In viewName [lit "home"; lit "gallery"; lit "naughty"] ->
   navigateTo viewName s = s) /\
  (In viewName [lit "home"; lit "gallery"; lit "naughty"] ->
   navigateTo viewName s =
     {| currentView := viewName;
        photos := photos s;
        naughtyLevel := naughtyLevel s;
        heartClicks := heartClicks s;
        showConfetti := showConfetti s;
        currentPhotoIndex := currentPhotoIndex s |}).
Proof.
  unfold navigateTo, setState.
  destruct (includes validViews viewName) eqn:E; cbn [negb].
  - apply includes_In in E. split; [intros H; now destruct H | reflexivity].
  - split; [reflexivity|]. intros H. apply includes_In in H.
    unfold validViews in E. congruence.
Qed.

Lemma C6_navigateTo_witness :
  navigateTo (lit "bogus") createInitialState = createInitialState /\
  currentView (navigateTo (lit "gallery") createInitialState) = lit "gallery".
Proof.
  split.
  - apply (proj1 (C6_navigateTo createInitialState (lit "bogus"))).
    cbn. intros [H | [H | [H | []]]]; discriminate H.
  - rewrite (proj2 (C6_navigateTo createInitialState (lit "gallery")));
      [reflexivity | cbn; tauto].
Defined.

(** ** C7: confetti on crossing 50 *)

(** C7. After [increaseNaughtyLevel(amount)], for every state and every
    amount a (10 when the amount is omitted), the new level is
    [min(level + a, 100)] and [showConfetti] is true exactly when the
    previous level was below 50 and the new level is at least 50, that
    is, exactly when [level < 50 <= min(level + a, 100)]; a call that
    starts at 50 or above leaves the flag false, whatever it was. *)
Theorem C7_increaseNaughtyLevel_confetti (s : State) (amount : option Z) :
  let a := match amount with Some a => a | None => 10 end in
  let s' := increaseNaughtyLevel amount s in
  naughtyLevel s' = Z.min (naughtyLevel s + a) 100 /\
  (showConfetti s' = true <->
   naughtyLevel s < 50 /\ 50 <= naughtyLevel s') /\
  (showConfetti s' = true <->
   naughtyLevel s < 50 <= Z.min (naughtyLevel s + a) 100) /\
  (50 <= naughtyLevel s -> showConfetti s' = false).
Proof.
  intros a s'. subst s'. unfold increaseNaughtyLevel, setState.
  cbn [showConfetti naughtyLevel]. fold a.
  set (new := Z.min _ 100).
  split; [reflexivity|].
  destruct (Z.geb_spec new 50), (Z.ltb_spec (naughtyLevel s) 50); simpl;
    (split; [|split]);
    try (split; [intros; try discriminate; lia | intros; try reflexivity; lia]);
    intros; try reflexivity; lia.
Qed.

Lemma C7_increaseNaughtyLevel_confetti_witness :
  showConfetti (increaseNaughtyLevel (Some 50) createInitialState) = true /\
  showConfetti (increaseNaughtyLevel (Some 10)
                  (increaseNaughtyLevel (Some 50) createInitialState)) = false.
Proof.
  split.
  - apply (proj2 (proj1 (proj2 (proj2 (C7_increaseNaughtyLevel_confetti
                    createInitialState (Some 50)))))).
    cbn. lia.
  - apply (proj2 (proj2 (proj2 (C7_increaseNaughtyLevel_confetti
                    (increaseNaughtyLevel (Some 50) createInitialState)
                    (Some 10))))).
    cbn. lia.
Defined.

(** ** C8: cycling through the gallery *)

(** C8. On a non-empty photo list of length n with the index i in [0, n),
    every finite sequence of [changePhoto] calls (with any directions)
    leaves the photo list alone and the index an integer in [0, n); one
    "next" gives [(i + 1) mod n], one "prev" gives [(i - 1 + n) mod n];
    with 3 photos and index 0, one "prev" gives 2. *)
Theorem C8_changePhoto_in_range (s : State) (n i : Z) :
  Z.of_nat (length (photos s)) = n ->
  0 < n ->
  currentPhotoIndex s = Int i ->
  0 <= i < n ->
  (forall dirs : list jsstring,
     exists j, currentPhotoIndex (run (List.map changePhoto dirs) s) = Int j /\
               0 <= j < n) /\
  currentPhotoIndex (changePhoto (lit "next") s) = Int (spec_next n i) /\
  currentPhotoIndex (changePhoto (lit "prev") s) = Int (spec_prev n i) /\
  (n = 3 -> i = 0 -> currentPhotoIndex (changePhoto (lit "prev") s) = Int 2).
Proof.
  intros Hn Hpos Hi Hr.
  assert (Hnext : currentPhotoIndex (changePhoto (lit "next") s)
                  = Int (spec_next n i)).
  { unfold changePhoto, setState, spec_next. cbn. rewrite Hi, Hn. cbn [add].
    apply rem_Int_mod; lia. }
  assert (Hprev : currentPhotoIndex (changePhoto (lit "prev") s)
                  = Int (spec_prev n i)).
  { unfold changePhoto, setState, spec_prev. cbn. rewrite Hi, Hn.
    cbn [add sub]. apply rem_Int_mod; lia. }
  split; [|split; [exact Hnext | split; [exact Hprev|]]].
  - intros dirs. subst n.
    destruct (changePhoto_sequence dirs s i Hi Hr) as (_ & j & Hj & Hjr).
    now exists j.
  - intros -> ->. rewrite Hprev. reflexivity.
Qed.

Lemma C8_changePhoto_in_range_witness :
  currentPhotoIndex (changePhoto (lit "prev") createInitialState) = Int 2.
Proof.
  apply (C8_changePhoto_in_range createInitialState 3 0);
    try reflexivity; lia.
Defined.

(** ** JSON text: what [stringify] writes, [parse] reads back *)

(** *** String literals *)

(** A code unit is the value of its four hexadecimal digits. *)
Lemma hex_recompose (c : N) :
  (4096 * (c / 4096) + 256 * ((c / 256) mod 16) + 16 * ((c / 16) mod 16)
   + c mod 16 = c)%N.
Proof.
  pose proof (N.div_mod c 16 ltac:(lia)).
  pose proof (N.div_mod (c / 16) 16 ltac:(lia)).
  pose proof (N.div_mod (c / 256) 16 ltac:(lia)).
  replace (c / 256)%N with (c / 16 / 16)%N in *
    by (rewrite N.Div0.div_div; reflexivity).
  replace (c / 4096)%N with (c / 16 / 16 / 16)%N in *
    by (rewrite !N.Div0.div_div; reflexivity).
  lia.
Qed.

Lemma hexval_hexdigit (d : N) : (d < 16)%N -> hexval (hexdigit d) = Some d.
Proof.
  intros H.
  assert (Hd : (d = 0 \/ d = 1 \/ d = 2 \/ d = 3 \/ d = 4 \/ d = 5 \/ d = 6 \/
                d = 7 \/ d = 8 \/ d = 9 \/ d = 10 \/ d = 11 \/ d = 12 \/
                d = 13 \/ d = 14 \/ d = 15)%N) by lia.
  repeat (destruct Hd as [-> | Hd]; [reflexivity|]). now subst d.
Qed.

(** Reading back a [\uXXXX] escape. *)
Lemma parse_chars_UnicodeEscape (c : N) (s : jsstring) :
  (c < 65536)%N ->
  parse_chars (UnicodeEscape c ++ s) =
  match parse_chars s with
  | Some (str, rest) => Some (c :: str, rest)
  | None => None
  end.
Proof.
  intros Hc. unfold UnicodeEscape.
  cbn [app parse_chars N.eqb Pos.eqb].
  rewrite !hexval_hexdigit.
  - now rewrite hex_recompose.
  - apply N.mod_lt; lia.
  - apply N.mod_lt; lia.
  - apply N.mod_lt; lia.
  - apply N.Div0.div_lt_upper_bound; lia.
Qed.

(** Reading back a code unit written by [quote_unit], escaped or not. *)
Lemma parse_chars_quote_unit (c : N) (s : jsstring) :
  parse_chars (quote_unit c ++ s) =
  match parse_chars s with
  | Some (str, rest) => Some (c :: str, rest)
  | None => None
  end.
Proof.
  unfold quote_unit.
  repeat match goal with
  | |- context [(c =? ?k)%N] =>
      destruct (N.eqb_spec c k) as [->|?]; [reflexivity|]
  end.
  destruct (N.ltb_spec c 32).
  - apply parse_chars_UnicodeEscape; lia.
  - cbn [app parse_chars].
    destruct (N.eqb_spec c 34); [lia|]. destruct (N.eqb_spec c 92); [lia|].
    destruct (N.ltb_spec c 32); [lia|]. reflexivity.
Qed.

Lemma is_leading_surrogate_spec (c : N) :
  is_leading_surrogate c = true -> (55296 <= c <= 56319)%N.
Proof.
  unfold is_leading_surrogate. intros H. apply andb_prop in H.
  destruct H as [H1%N.leb_le H2%N.leb_le]. lia.
Qed.

Lemma is_trailing_surrogate_spec (c : N) :
  is_trailing_surrogate c = true -> (56320 <= c <= 57343)%N.
Proof.
  unfold is_trailing_surrogate. intros H. apply andb_prop in H.
  destruct H as [H1%N.leb_le H2%N.leb_le]. lia.
Qed.

(** A code unit from 32 up other than the quote and the backslash stands
    for itself. *)
Lemma parse_chars_plain (c : N) (s : jsstring) :
  (32 <= c)%N -> c <> 34%N -> c <> 92%N ->
  parse_chars (c :: s) =
  match parse_chars s with
  | Some (str, rest) => Some (c :: str, rest)
  | None => None
  end.
Proof.
  intros H1 H2 H3. cbn [parse_chars].
  destruct (N.eqb_spec c 34); [lia|]. destruct (N.eqb_spec c 92); [lia|].
  destruct (N.ltb_spec c 32); [lia|]. reflexivity.
Qed.

(** The induction is on a bound of the length, as a surrogate pair takes two
    code units at once. *)
Lemma parse_chars_quote_units_len (n : nat) :
  forall (s rest : jsstring), (length s <= n)%nat ->
    parse_chars (quote_units s ++ 34%N :: rest) = Some (s, rest).
Proof.
  induction n as [|n IH]; intros s rest Hlen.
  - destruct s; [reflexivity | simpl in Hlen; lia].
  - destruct s as [|c t]; [reflexivity|]. simpl in Hlen.
    cbn [quote_units].
    destruct (is_leading_surrogate c) eqn:Hl.
    + apply is_leading_surrogate_spec in Hl.
      destruct t as [|d t'].
      * rewrite parse_chars_UnicodeEscape by lia. reflexivity.
      * destruct (is_trailing_surrogate d) eqn:Ht.
        -- apply is_trailing_surrogate_spec in Ht. simpl in Hlen.
           cbn [app]. rewrite parse_chars_plain by lia.
           rewrite parse_chars_plain by lia.
           rewrite IH by lia. reflexivity.
        -- rewrite <- app_assoc, parse_chars_UnicodeEscape by lia.
           rewrite IH by lia. reflexivity.
    + destruct (is_trailing_surrogate c) eqn:Ht.
      * apply is_trailing_surrogate_spec in Ht.
        rewrite <- app_assoc, parse_chars_UnicodeEscape by lia.
        rewrite IH by lia. reflexivity.
      * rewrite <- app_assoc, parse_chars_quote_unit.
        rewrite IH by lia. reflexivity.
Qed.

(** Every string is read back from its quoted form, whatever follows the
    closing quote. *)
Lemma parse_chars_quote_units (s rest : jsstring) :
  parse_chars (quote_units s ++ 34%N :: rest) = Some (s, rest).
Proof. now apply (parse_chars_quote_units_len (length s)). Qed.

(** *** Number literals *)

Lemma read_digits_digits (d : Decimal.uint) (rest : jsstring) :
  terminated rest -> read_digits (digits d ++ rest) = (d, rest).
Proof.
  intros Hr.
  induction d as [|d IH|d IH|d IH|d IH|d IH|d IH|d IH|d IH|d IH|d IH];
    try (cbn [digits app read_digits digit_of N.eqb Pos.eqb];
         rewrite IH; reflexivity).
  cbn [digits app]. destruct rest as [|c rest]; [reflexivity|].
  cbn [read_digits]. destruct Hr as [-> | [-> | ->]]; reflexivity.
Qed.

(** A numeral in normal form obeys the grammar of an integer part. *)
Lemma unorm_int_part (d : Decimal.uint) :
  Decimal.unorm d = d -> int_part d = true.
Proof.
  destruct d as [|d| | | | | | | | |]; try reflexivity; [discriminate|].
  intros H. rewrite DecimalFacts.unorm_D0 in H. unfold Decimal.unorm in H.
  destruct (Decimal.nzhead d) as [|u| | | | | | | | |] eqn:E;
    try discriminate H.
  - injection H as <-. reflexivity.
  - exfalso. exact (DecimalFacts.nzhead_nonzero d u E).
Qed.

(** The numeral of an integer is in normal form. *)
Lemma to_int_normal (z : Z) :
  match Z.to_int z with
  | Decimal.Pos d | Decimal.Neg d => Decimal.unorm d = d
  end.
Proof.
  pose proof (DecimalZ.to_of (Z.to_int z)) as H.
  rewrite DecimalZ.of_to in H.
  destruct (Z.to_int z) as [d|d]; cbn [Decimal.norm] in H.
  - now injection H.
  - unfold Decimal.unorm.
    destruct (Decimal.nzhead d); try discriminate H; now injection H.
Qed.

Lemma int_part_digits (d : Decimal.uint) :
  int_part d = true ->
  exists c t, digits d = c :: t /\ (48 <= c <= 57)%N.
Proof.
  destruct d; try discriminate; intros _; cbn [digits];
    eexists _, _; (split; [reflexivity | lia]).
Qed.

(** Neither a fraction nor an exponent begins with a comma, a closing
    bracket or a closing brace. *)
Lemma read_fraction_terminated (rest : jsstring) :
  terminated rest -> read_fraction rest = Some (Decimal.Nil, rest).
Proof.
  destruct rest as [|c rest]; [reflexivity|].
  intros [-> | [-> | ->]]; reflexivity.
Qed.

Lemma read_exponent_terminated (rest : jsstring) :
  terminated rest -> read_exponent rest = Some (0, rest).
Proof.
  destruct rest as [|c rest]; [reflexivity|].
  intros [-> | [-> | ->]]; reflexivity.
Qed.

(** A literal without fraction and exponent denotes its integer part. *)
Lemma integer_value_plain (minus : bool) (d : Decimal.uint) :
  integer_value {| negative := minus; integer := d;
                   fraction := Decimal.Nil; exponent := 0 |}
  = Some (Z.of_int (if minus then Decimal.Neg d else Decimal.Pos d)).
Proof.
  unfold integer_value.
  cbn [negative integer fraction exponent Decimal.nb_digits Z.of_nat].
  rewrite DecimalFacts.app_nil_r.
  change (0 <=? 0 - 0) with true. change (10 ^ (0 - 0)) with 1.
  rewrite Z.mul_1_r. destruct minus; reflexivity.
Qed.

(** Every integer is read back from its decimal text. *)
Lemma parse_number_toString (z : Z) (rest : jsstring) :
  terminated rest ->
  parse_number (Number_toString z ++ rest) = Some (VNumber (Int z), rest).
Proof.
  intros Hr. unfold Number_toString.
  pose proof (to_int_normal z) as Hn. pose proof (DecimalZ.of_to z) as Hz.
  destruct (Z.to_int z) as [d|d]; apply unorm_int_part in Hn.
  - destruct (int_part_digits d Hn) as (c & t & E & Hc).
    unfold parse_number, scan_number. rewrite E. cbn [app].
    destruct (N.eqb_spec c 45); [lia|].
    change (c :: t ++ rest) with ((c :: t) ++ rest).
    rewrite <- E, read_digits_digits, Hn, read_fraction_terminated,
      read_exponent_terminated, integer_value_plain, Hz by assumption.
    reflexivity.
  - unfold parse_number, scan_number. cbn [app N.eqb Pos.eqb].
    rewrite read_digits_digits, Hn, read_fraction_terminated,
      read_exponent_terminated, integer_value_plain, Hz by assumption.
    reflexivity.
Qed.

(** *** Values *)

(** Induction on values that reaches the elements of arrays and the values
    of properties. *)
Lemma value_nested_ind (P : value -> Prop) :
  P VUndefined -> P VNull -> (forall b, P (VBool b)) ->
  (forall n, P (VNumber n)) -> (forall s, P (VString s)) ->
  (forall elems, Forall P elems -> P (VArray elems)) ->
  (forall props, Forall (fun p => P (snd p)) props -> P (VObject props)) ->
  forall v, P v.
Proof.
  intros Hu Hn Hb Hnum Hs Ha Ho.
  fix IH 1. intros [| |b|n|s|elems|props].
  - exact Hu.
  - exact Hn.
  - apply Hb.
  - apply Hnum.
  - apply Hs.
  - apply Ha. induction elems as [|e elems IHl]; constructor.
    + apply IH.
    + exact IHl.
  - apply Ho. induction props as [|[k e] props IHl]; constructor.
    + apply IH.
    + exact IHl.
Qed.

Lemma serialize_head (v : value) :
  exists c t, serialize v = c :: t /\ value_start c.
Proof.
  unfold value_start.
  destruct v as [| |[|]|[z|]|s|elems|props];
    cbn [serialize]; unfold QuoteJSONString;
    try (vm_compute (lit _); eexists _, _; split; [reflexivity | lia]).
  unfold Number_toString. pose proof (to_int_normal z) as Hn.
  destruct (Z.to_int z) as [d|d].
  - apply unorm_int_part, int_part_digits in Hn.
    destruct Hn as (c & t & -> & Hc). exists c, t. split; [reflexivity | lia].
  - eexists _, _. split; [reflexivity | lia].
Qed.

Lemma skip_ws_value_start (c : N) (t : jsstring) :
  value_start c -> skip_ws (c :: t) = c :: t.
Proof.
  unfold value_start. intros H. cbn [skip_ws]. unfold is_ws.
  destruct (N.eqb_spec c 9); [lia|]. destruct (N.eqb_spec c 10); [lia|].
  destruct (N.eqb_spec c 13); [lia|]. destruct (N.eqb_spec c 32); [lia|].
  reflexivity.
Qed.

Lemma parse_value_number (fuel : nat) (c : N) (t : jsstring) :
  (c = 45 \/ 48 <= c <= 57)%N ->
  parse_value (S fuel) (c :: t) = parse_number (c :: t).
Proof.
  intros H. cbn [parse_value].
  rewrite skip_ws_value_start by (unfold value_start; lia).
  repeat match goal with
  | |- context [(c =? ?k)%N] => destruct (N.eqb_spec c k); [lia|]
  end.
  reflexivity.
Qed.

(** Properties with distinct keys make the object they are listed in. *)
Lemma define_property_fresh (k : jsstring) (v : value)
    (props : list (jsstring * value)) :
  ~ In k (List.map fst props) -> define_property k v props = props ++ [(k, v)].
Proof.
  induction props as [|[k' v'] props IH]; intros Hk; [reflexivity|].
  cbn [define_property]. cbn [List.map fst In] in Hk.
  destruct (str_eq k' k) eqn:E.
  - apply bool_decide_eq_true in E. tauto.
  - cbn [app]. rewrite IH by tauto. reflexivity.
Qed.

Lemma fold_define_property (members acc : list (jsstring * value)) :
  List.NoDup (List.map fst (acc ++ members)) ->
  fold_left (fun props m => define_property (fst m) (snd m) props) members acc
  = acc ++ members.
Proof.
  revert acc. induction members as [|[k v] members IH]; intros acc Hnd.
  - now rewrite app_nil_r.
  - cbn [fold_left fst snd].
    rewrite define_property_fresh.
    + rewrite IH; rewrite <- app_assoc; [reflexivity | exact Hnd].
    + rewrite List.map_app in Hnd. cbn [List.map fst] in Hnd.
      apply List.NoDup_remove_2 in Hnd. rewrite in_app_iff in Hnd. tauto.
Qed.

Lemma object_of_distinct (props : list (jsstring * value)) :
  List.NoDup (List.map fst props) -> object_of props = VObject props.
Proof.
  intros H. unfold object_of. now rewrite fold_define_property.
Qed.

(** No property of a lossless object is left out of its text. *)
Lemma members_lossless (props : list (jsstring * value)) :
  forallb (fun p => match p with (_, e) => lossless e end) props = true ->
  flat_map (fun p =>
    match p with
    | (k, e) =>
        if is_undefined e then []
        else [QuoteJSONString k ++ 58%N :: serialize e]
    end) props
  = List.map member_text props.
Proof.
  induction props as [|[k e] props IH]; [reflexivity|].
  cbn [forallb flat_map List.map]. intros H. apply andb_prop in H.
  destruct H as [He Hp]. rewrite IH by assumption.
  destruct e; try discriminate He; reflexivity.
Qed.

(** The elements of a non-empty array, up to the closing bracket. *)
Lemma parse_elements_serialize (elems : list value) :
  elems <> [] ->
  Forall reads_back elems ->
  forallb lossless elems = true ->
  forall (fuel : nat) (rest : jsstring),
    (list_sum (List.map (fun e => S (size e)) elems) <= fuel)%nat ->
    parse_elements fuel (join_comma (List.map serialize elems) ++ 93%N :: rest)
    = Some (elems, rest).
Proof.
  induction elems as [|x elems IH]; [congruence|].
  intros _ Hall Hl fuel rest Hfuel.
  apply Forall_cons in Hall. destruct Hall as [Hx Hall].
  cbn [forallb] in Hl. apply andb_prop in Hl. destruct Hl as [Hlx Hl].
  cbn [List.map list_sum fold_right] in Hfuel.
  destruct fuel as [|fuel]; [lia|]. cbn [parse_elements].
  destruct elems as [|y elems].
  - cbn [List.map list_sum fold_right] in Hfuel. cbn [List.map join_comma].
    rewrite (Hx Hlx) by (first [lia | cbn [terminated]; auto]).
    reflexivity.
  - cbn [List.map join_comma]. rewrite <- app_assoc. cbn [app].
    rewrite (Hx Hlx) by (first [lia | cbn [terminated]; auto]).
    cbn [skip_ws is_ws N.eqb Pos.eqb orb].
    change (serialize y :: List.map serialize elems)
      with (List.map serialize (y :: elems)).
    rewrite IH; [reflexivity | congruence | assumption | assumption |].
    cbn [List.map list_sum fold_right] in *. lia.
Qed.

(** The members of a non-empty object, up to the closing brace. *)
Lemma parse_members_serialize (props : list (jsstring * value)) :
  props <> [] ->
  Forall (fun p => reads_back (snd p)) props ->
  forallb (fun p => match p with (_, e) => lossless e end) props = true ->
  forall (fuel : nat) (rest : jsstring),
    (list_sum (List.map (fun p => match p with (_, e) => S (size e) end) props)
     <= fuel)%nat ->
    parse_members fuel (join_comma (List.map member_text props) ++ 125%N :: rest)
    = Some (props, rest).
Proof.
  induction props as [|[k x] props IH]; [congruence|].
  intros _ Hall Hl fuel rest Hfuel.
  apply Forall_cons in Hall. destruct Hall as [Hx Hall]. cbn [snd] in Hx.
  cbn [forallb] in Hl. apply andb_prop in Hl. destruct Hl as [Hlx Hl].
  cbn [List.map list_sum fold_right] in Hfuel.
  destruct fuel as [|fuel]; [lia|]. cbn [parse_members].
  destruct props as [|q props].
  - cbn [List.map list_sum fold_right] in Hfuel.
    cbn [List.map join_comma]. unfold member_text, QuoteJSONString.
    cbn [fst snd app]. rewrite <- !app_assoc. cbn [app].
    cbn [skip_ws is_ws expect N.eqb Pos.eqb orb].
    rewrite parse_chars_quote_units.
    cbn [skip_ws is_ws expect N.eqb Pos.eqb orb].
    rewrite (Hx Hlx) by (first [lia | cbn [terminated]; auto]).
    reflexivity.
  - cbn [List.map join_comma]. unfold member_text at 1, QuoteJSONString.
    cbn [fst snd app]. rewrite <- !app_assoc. cbn [app].
    cbn [skip_ws is_ws expect N.eqb Pos.eqb orb].
    rewrite parse_chars_quote_units.
    cbn [skip_ws is_ws expect N.eqb Pos.eqb orb].
    rewrite (Hx Hlx) by (first [lia | cbn [terminated]; auto]).
    cbn [skip_ws is_ws N.eqb Pos.eqb orb].
    change (member_text q :: List.map member_text props)
      with (List.map member_text (q :: props)).
    rewrite IH; [reflexivity | congruence | assumption | assumption |].
    cbn [List.map list_sum fold_right] in *. lia.
Qed.

Lemma expect_close_value_start (close c : N) (t : jsstring) :
  value_start c -> (close = 93 \/ close = 125)%N ->
  expect [close] (skip_ws (c :: t)) = None.
Proof.
  intros Hc Hclose. rewrite skip_ws_value_start by assumption.
  cbn [expect]. unfold value_start in Hc.
  destruct (N.eqb_spec c close); [lia | reflexivity].
Qed.

(** Every lossless value is read back from its text, whatever follows it,
    with fuel from its size on. *)
Lemma parse_value_serialize (v : value) : reads_back v.
Proof.
  induction v as [| |b|n|s|elems IH|props IH] using value_nested_ind;
    intros Hl fuel rest Hfuel Hrest;
    (destruct fuel as [|fuel]; [cbn [size] in Hfuel; lia|]).
  - discriminate Hl.
  - reflexivity.
  - destruct b; reflexivity.
  - destruct n as [z|]; [|discriminate Hl]. cbn [serialize].
    destruct (serialize_head (VNumber (Int z))) as (c & t & E & Hc).
    cbn [serialize] in E.
    assert (Hnum : (c = 45 \/ 48 <= c <= 57)%N).
    { unfold Number_toString in E. pose proof (to_int_normal z) as Hn.
      destruct (Z.to_int z) as [d|d].
      - apply unorm_int_part, int_part_digits in Hn.
        destruct Hn as (c' & t' & E' & Hc'). rewrite E' in E.
        injection E as -> _. lia.
      - injection E as <- _. lia. }
    pose proof (parse_number_toString z rest Hrest) as Hp.
    rewrite E in *. cbn [app] in *. now rewrite parse_value_number.
  - cbn [serialize]. unfold QuoteJSONString. cbn [app]. rewrite <- app_assoc.
    cbn [app parse_value skip_ws is_ws N.eqb Pos.eqb orb].
    now rewrite parse_chars_quote_units.
  - cbn [serialize lossless size] in *.
    cbn [app]. rewrite <- app_assoc.
    cbn [app parse_value skip_ws is_ws N.eqb Pos.eqb orb].
    destruct elems as [|x elems]; [reflexivity|].
    assert (Hne : x :: elems <> []) by congruence.
    pose proof (parse_elements_serialize (x :: elems) Hne IH Hl fuel rest
                  ltac:(lia)) as Hp.
    destruct (serialize_head x) as (c & t & E & Hc).
    revert Hp. cbn [List.map join_comma].
    destruct elems as [|y elems]; cbn [List.map join_comma];
      rewrite E; cbn [app]; intros Hp;
      rewrite expect_close_value_start by (auto; lia);
      now rewrite Hp.
  - cbn [serialize lossless size] in *.
    apply andb_prop in Hl. destruct Hl as [Hnd Hl].
    apply bool_decide_eq_true, NoDup_ListNoDup in Hnd.
    rewrite members_lossless by assumption.
    cbn [app]. rewrite <- app_assoc.
    cbn [app parse_value skip_ws is_ws N.eqb Pos.eqb orb].
    destruct props as [|[k x] props]; [reflexivity|].
    assert (Hne : (k, x) :: props <> []) by congruence.
    pose proof (parse_members_serialize ((k, x) :: props) Hne IH Hl fuel rest
                  ltac:(lia)) as Hp.
    revert Hp. cbn [List.map join_comma].
    destruct props as [|q props]; cbn [List.map join_comma];
      unfold member_text, QuoteJSONString; cbn [fst app]; intros Hp;
      rewrite expect_close_value_start by (unfold value_start; lia);
      rewrite Hp, object_of_distinct by assumption; reflexivity.
Qed.

(** *** The fuel *)

Lemma list_sum_cons (n : nat) (l : list nat) :
  list_sum (n :: l) = (n + list_sum l)%nat.
Proof. reflexivity. Qed.

Lemma length_join_comma (parts : list jsstring) (bound : list nat) :
  Forall2 (fun n part => (n <= length part)%nat) bound parts ->
  (list_sum (List.map S bound) <= S (length (join_comma parts)))%nat.
Proof.
  induction 1 as [|n part bound parts Hn Hrest IH]; [cbn; lia|].
  cbn [List.map]. rewrite list_sum_cons.
  destruct Hrest as [|n' part' bound' parts' Hn' Hrest'].
  - cbn. lia.
  - change (join_comma (part :: part' :: parts'))
      with (part ++ 44%N :: join_comma (part' :: parts')).
    rewrite length_app. cbn [length]. lia.
Qed.

Lemma length_Number_toString (z : Z) : (1 <= length (Number_toString z))%nat.
Proof.
  destruct (serialize_head (VNumber (Int z))) as (c & t & E & _).
  cbn [serialize] in E. rewrite E. cbn [length]. lia.
Qed.

(** The fuel [parse] takes from the length of the text is enough. *)
Lemma size_le_length (v : value) :
  lossless v = true -> (size v <= length (serialize v))%nat.
Proof.
  induction v as [| |b|n|s|elems IH|props IH] using value_nested_ind;
    intros Hl.
  - discriminate Hl.
  - cbn. lia.
  - destruct b; cbn; lia.
  - destruct n as [z|]; [|discriminate Hl].
    cbn [size serialize]. apply length_Number_toString.
  - cbn [size serialize]. unfold QuoteJSONString. cbn [length]. lia.
  - cbn [size serialize lossless] in *. cbn [length]. rewrite length_app.
    cbn [length].
    pose proof (length_join_comma (List.map serialize elems)
                  (List.map size elems)) as H.
    rewrite List.map_map in H.
    enough (Forall2 (fun n part => (n <= length part)%nat)
              (List.map size elems) (List.map serialize elems))
      by (specialize (H ltac:(assumption)); lia).
    clear H. induction elems as [|x elems IHl]; cbn [List.map]; constructor.
    + apply Forall_cons in IH. destruct IH as [Hx _]. apply Hx.
      cbn [forallb] in Hl. now apply andb_prop in Hl.
    + apply IHl.
      * apply Forall_cons in IH. tauto.
      * cbn [forallb] in Hl. now apply andb_prop in Hl.
  - cbn [size serialize lossless] in *.
    apply andb_prop in Hl. destruct Hl as [_ Hl].
    rewrite members_lossless by assumption.
    cbn [length]. rewrite length_app. cbn [length].
    pose proof (length_join_comma (List.map member_text props)
                  (List.map (fun p => size (snd p)) props)) as H.
    rewrite List.map_map in H.
    assert (E : List.map (fun p : jsstring * value =>
                            match p with (_, e) => S (size e) end) props
                = List.map (fun p => S (size (snd p))) props).
    { apply List.map_ext. now intros [k e]. }
    rewrite E.
    enough (Forall2 (fun n part => (n <= length part)%nat)
              (List.map (fun p => size (snd p)) props)
              (List.map member_text props))
      by (specialize (H ltac:(assumption)); lia).
    clear H E. induction props as [|[k x] props IHl]; cbn [List.map];
      constructor.
    + apply Forall_cons in IH. destruct IH as [Hx _]. cbn [snd] in *.
      unfold member_text. cbn [fst snd]. rewrite length_app. cbn [length].
      cbn [forallb] in Hl. apply andb_prop in Hl. destruct Hl as [Hlx _].
      specialize (Hx Hlx). lia.
    + apply IHl.
      * apply Forall_cons in IH. tauto.
      * cbn [forallb] in Hl. now apply andb_prop in Hl.
Qed.

(** [JSON.parse(JSON.stringify(v))] is [v] for every lossless value. *)
Lemma parse_stringify (v : value) :
  lossless v = true ->
  stringify v = Some (serialize v) /\ parse (serialize v) = Some v.
Proof.
  intros Hl. split.
  - unfold stringify. destruct v; try reflexivity; discriminate Hl.
  - unfold parse.
    pose proof (parse_value_serialize v Hl (S (length (serialize v))) []
                  ltac:(pose proof (size_le_length v Hl); lia) I) as Hp.
    rewrite app_nil_r in Hp. now rewrite Hp.
Qed.

(** *** The grammar *)

Lemma parse_number_scan (s : jsstring) (v : value) (r : jsstring) :
  parse_number s = Some (v, r) -> exists l, scan_number s = Some (l, r).
Proof.
  unfold parse_number. destruct (scan_number s) as [[l r']|]; [|discriminate].
  destruct (integer_value l); [|discriminate]. intros [= _ <-]. now exists l.
Qed.

(** A text that has a value obeys the grammar, and the same text follows
    the value. *)
Lemma parse_accept (fuel : nat) :
  (forall s v r, parse_value fuel s = Some (v, r) ->
                 accept_value fuel s = Some r) /\
  (forall s l r, parse_elements fuel s = Some (l, r) ->
                 accept_elements fuel s = Some r) /\
  (forall s m r, parse_members fuel s = Some (m, r) ->
                 accept_members fuel s = Some r).
Proof.
  induction fuel as [|fuel (IHv & IHe & IHm)]; [repeat split; discriminate|].
  repeat split.
  - intros s v r. cbn [parse_value accept_value].
    destruct (skip_ws s) as [|c t]; [discriminate|].
    destruct (c =? 110)%N.
    { destruct (expect _ t); cbn; [now intros [= _ <-] | discriminate]. }
    destruct (c =? 116)%N.
    { destruct (expect _ t); cbn; [now intros [= _ <-] | discriminate]. }
    destruct (c =? 102)%N.
    { destruct (expect _ t); cbn; [now intros [= _ <-] | discriminate]. }
    destruct (c =? 34)%N.
    { destruct (parse_chars t) as [[str r']|]; [now intros [= _ <-]|].
      discriminate. }
    destruct (c =? 91)%N.
    { destruct (expect _ (skip_ws t)); [now intros [= _ <-]|].
      destruct (parse_elements fuel t) as [[elems r']|] eqn:E; [|discriminate].
      intros [= _ <-]. now apply IHe in E. }
    destruct (c =? 123)%N.
    { destruct (expect _ (skip_ws t)); [now intros [= _ <-]|].
      destruct (parse_members fuel t) as [[members r']|] eqn:E;
        [|discriminate].
      intros [= _ <-]. now apply IHm in E. }
    intros H. apply parse_number_scan in H as (l & ->). reflexivity.
  - intros s l r. cbn [parse_elements accept_elements].
    destruct (parse_value fuel s) as [[v r']|] eqn:E; [|discriminate].
    rewrite (IHv _ _ _ E). destruct (skip_ws r') as [|c r'']; [discriminate|].
    destruct (c =? 44)%N.
    { destruct (parse_elements fuel r'') as [[elems r3]|] eqn:E2;
        [|discriminate].
      intros [= _ <-]. now apply IHe in E2. }
    destruct (c =? 93)%N; [now intros [= _ <-] | discriminate].
  - intros s m r. cbn [parse_members accept_members].
    destruct (expect _ (skip_ws s)) as [t|]; [|discriminate].
    destruct (parse_chars t) as [[k r0]|]; [|discriminate].
    destruct (expect _ (skip_ws r0)) as [r1|]; [|discriminate].
    destruct (parse_value fuel r1) as [[v r2]|] eqn:E; [|discriminate].
    rewrite (IHv _ _ _ E). destruct (skip_ws r2) as [|c r3]; [discriminate|].
    destruct (c =? 44)%N.
    { destruct (parse_members fuel r3) as [[members r4]|] eqn:E2;
        [|discriminate].
      intros [= _ <-]. now apply IHm in E2. }
    destruct (c =? 125)%N; [now intros [= _ <-] | discriminate].
Qed.

Lemma parse_well_formed (text : jsstring) (v : value) :
  parse text = Some v -> well_formed text = true.
Proof.
  unfold parse, well_formed.
  destruct (parse_value _ text) as [[v' rest]|] eqn:E; [|discriminate].
  apply (proj1 (parse_accept _)) in E. rewrite E.
  destruct (skip_ws rest); [reflexivity | discriminate].
Qed.

(** The text of a lossless value obeys the grammar. *)
Lemma well_formed_serialize (v : value) :
  lossless v = true -> well_formed (serialize v) = true.
Proof.
  intros Hl. apply (parse_well_formed _ v). now apply parse_stringify.
Qed.

(** *** The fuel of the grammar *)

Lemma skip_ws_length (s : jsstring) : (length (skip_ws s) <= length s)%nat.
Proof.
  induction s as [|c s IH]; [reflexivity|].
  cbn [skip_ws]. destruct (is_ws c); cbn [length]; lia.
Qed.

Lemma expect_length (prefix s r : jsstring) :
  expect prefix s = Some r -> (length s = length prefix + length r)%nat.
Proof.
  revert s. induction prefix as [|p prefix IH]; intros s.
  - now intros [= ->].
  - destruct s as [|c s]; [discriminate|]. cbn [expect].
    destruct (c =? p)%N; [|discriminate].
    intros H. apply IH in H. cbn [length]. lia.
Qed.

Lemma parse_chars_length (s str r : jsstring) :
  parse_chars s = Some (str, r) -> (length r < length s)%nat.
Proof.
  remember (length s) as n eqn:Hn. revert s str r Hn.
  induction n as [n IH] using lt_wf_ind. intros s str r Hn.
  destruct s as [|c t]; [discriminate|]. cbn [parse_chars].
  cbn [length] in Hn.
  destruct (c =? 34)%N; [intros [= _ <-]; cbn [length]; lia|].
  destruct (c =? 92)%N.
  - destruct t as [|e t']; [discriminate|].
    destruct (e =? 117)%N.
    + destruct t' as [|h1 [|h2 [|h3 [|h4 t'']]]]; try discriminate.
      destruct (hexval h1), (hexval h2), (hexval h3), (hexval h4);
        try discriminate.
      destruct (parse_chars t'') as [[str' r']|] eqn:E; [|discriminate].
      intros [= _ <-]. cbn [length] in *.
      pose proof (IH (length t'') ltac:(lia) t'' str' r' eq_refl E). lia.
    + destruct (unescape e); [|discriminate].
      destruct (parse_chars t') as [[str' r']|] eqn:E; [|discriminate].
      intros [= _ <-]. cbn [length] in *.
      pose proof (IH (length t') ltac:(lia) t' str' r' eq_refl E). lia.
  - destruct (c <? 32)%N; [discriminate|].
    destruct (parse_chars t) as [[str' r']|] eqn:E; [|discriminate].
    intros [= _ <-]. cbn [length].
    pose proof (IH (length t) ltac:(lia) t str' r' eq_refl E). lia.
Qed.

Lemma read_digits_length (s : jsstring) :
  (length (snd (read_digits s)) + Decimal.nb_digits (fst (read_digits s))
   = length s)%nat.
Proof.
  induction s as [|c s IH]; [reflexivity|].
  cbn [read_digits]. destruct (digit_of c) as [k|] eqn:E; [|cbn; lia].
  destruct (read_digits s) as [d rest]. cbn [fst snd] in *.
  assert (Hk : Decimal.nb_digits (k d) = S (Decimal.nb_digits d)).
  { unfold digit_of in E.
    repeat match type of E with
    | (if ?b then _ else _) = _ =>
        destruct b; [injection E as <-; reflexivity|]
    end. discriminate E. }
  rewrite Hk. cbn [length]. lia.
Qed.

Lemma read_fraction_length (s : jsstring) (f : Decimal.uint) (r : jsstring) :
  read_fraction s = Some (f, r) -> (length r <= length s)%nat.
Proof.
  destruct s as [|c t]; [now intros [= _ <-]|]. cbn [read_fraction].
  destruct (c =? 46)%N; [|now intros [= _ <-]].
  pose proof (read_digits_length t) as H.
  destruct (read_digits t) as [d rest]. cbn [fst snd] in H.
  destruct d; try discriminate; intros [= _ <-]; cbn [length]; lia.
Qed.

Lemma read_exponent_length (s : jsstring) (e : Z) (r : jsstring) :
  read_exponent s = Some (e, r) -> (length r <= length s)%nat.
Proof.
  destruct s as [|c t]; [now intros [= _ <-]|]. cbn [read_exponent].
  destruct ((c =? 101) || (c =? 69))%N; [|now intros [= _ <-]].
  destruct t as [|sign t'].
  - discriminate.
  - destruct (sign =? 45)%N; [|destruct (sign =? 43)%N].
    + pose proof (read_digits_length t') as Hl.
      destruct (read_digits t') as [d rest]. cbn [fst snd] in Hl.
      destruct d; try discriminate; intros [= _ <-]; cbn [length]; lia.
    + pose proof (read_digits_length t') as Hl.
      destruct (read_digits t') as [d rest]. cbn [fst snd] in Hl.
      destruct d; try discriminate; intros [= _ <-]; cbn [length]; lia.
    + pose proof (read_digits_length (sign :: t')) as Hl.
      destruct (read_digits (sign :: t')) as [d rest]. cbn [fst snd] in Hl.
      destruct d; try discriminate; intros [= _ <-]; cbn [length] in *; lia.
Qed.

Lemma scan_number_length (s : jsstring) (l : NumberLiteral) (r : jsstring) :
  scan_number s = Some (l, r) -> (length r < length s)%nat.
Proof.
  unfold scan_number.
  destruct s as [|c t].
  - cbn. discriminate.
  - destruct (c =? 45)%N.
    + pose proof (read_digits_length t) as Hd.
      destruct (read_digits t) as [d rest]. cbn [fst snd] in Hd.
      destruct (int_part d) eqn:Ei; [|discriminate].
      destruct (read_fraction rest) as [[f rest0]|] eqn:Ef; [|discriminate].
      destruct (read_exponent rest0) as [[e rest1]|] eqn:Ee; [|discriminate].
      intros [= _ <-].
      apply read_fraction_length in Ef. apply read_exponent_length in Ee.
      cbn [length]. lia.
    + pose proof (read_digits_length (c :: t)) as Hd.
      destruct (read_digits (c :: t)) as [d rest]. cbn [fst snd] in Hd.
      destruct (int_part d) eqn:Ei; [|discriminate].
      destruct (read_fraction rest) as [[f rest0]|] eqn:Ef; [|discriminate].
      destruct (read_exponent rest0) as [[e rest1]|] eqn:Ee; [|discriminate].
      intros [= _ <-].
      apply read_fraction_length in Ef. apply read_exponent_length in Ee.
      destruct d; try discriminate Ei; cbn [Decimal.nb_digits] in Hd; lia.
Qed.

(** More fuel does not change what is accepted. *)
Lemma accept_more_fuel (fuel : nat) :
  (forall s r fuel', accept_value fuel s = Some r -> (fuel <= fuel')%nat ->
                     accept_value fuel' s = Some r) /\
  (forall s r fuel', accept_elements fuel s = Some r -> (fuel <= fuel')%nat ->
                     accept_elements fuel' s = Some r) /\
  (forall s r fuel', accept_members fuel s = Some r -> (fuel <= fuel')%nat ->
                     accept_members fuel' s = Some r).
Proof.
  induction fuel as [|fuel (IHv & IHe & IHm)]; [repeat split; discriminate|].
  repeat split; intros s r [|fuel'] H Hle; try lia;
    assert (Hle' : (fuel <= fuel')%nat) by lia.
  - cbn [accept_value] in *.
    destruct (skip_ws s) as [|c t]; [discriminate|].
    destruct (c =? 110)%N; [exact H|]. destruct (c =? 116)%N; [exact H|].
    destruct (c =? 102)%N; [exact H|]. destruct (c =? 34)%N; [exact H|].
    destruct (c =? 91)%N.
    { destruct (expect _ (skip_ws t)); [exact H | now apply IHe]. }
    destruct (c =? 123)%N.
    { destruct (expect _ (skip_ws t)); [exact H | now apply IHm]. }
    exact H.
  - cbn [accept_elements] in *.
    destruct (accept_value fuel s) as [r1|] eqn:E; [|discriminate].
    rewrite (IHv _ _ _ E Hle').
    destruct (skip_ws r1) as [|c r2]; [discriminate|].
    destruct (c =? 44)%N; [now apply IHe | exact H].
  - cbn [accept_members] in *.
    destruct (expect _ (skip_ws s)) as [t|]; [|discriminate].
    destruct (parse_chars t) as [[k r0]|]; [|discriminate].
    destruct (expect _ (skip_ws r0)) as [r1|]; [|discriminate].
    destruct (accept_value fuel r1) as [r2|] eqn:E; [|discriminate].
    rewrite (IHv _ _ _ E Hle').
    destruct (skip_ws r2) as [|c r3]; [discriminate|].
    destruct (c =? 44)%N; [now apply IHm | exact H].
Qed.

(** What is accepted with some fuel is accepted with as much fuel as the
    text read has code units. *)
Lemma accept_fuel_bound (fuel : nat) :
  (forall s r, accept_value fuel s = Some r ->
     (length r < length s)%nat /\
     accept_value (length s - length r) s = Some r) /\
  (forall s r, accept_elements fuel s = Some r ->
     (length r < length s)%nat /\
     accept_elements (length s - length r) s = Some r) /\
  (forall s r, accept_members fuel s = Some r ->
     (length r < length s)%nat /\
     accept_members (length s - length r) s = Some r).
Proof.
  induction fuel as [|fuel (IHv & IHe & IHm)];
    [split; [|split]; discriminate|].
  split; [|split]; intros s r H.
  - cbn [accept_value] in H.
    pose proof (skip_ws_length s) as Hs.
    destruct (skip_ws s) as [|c t] eqn:Es; [discriminate|].
    cbn [length] in Hs.
    assert (Hgoal : (length r < length s)%nat ->
              (forall n, (length s - length r = S n)%nat ->
                 (if (c =? 110)%N then expect (lit "ull") t
                  else if (c =? 116)%N then expect (lit "rue") t
                  else if (c =? 102)%N then expect (lit "alse") t
                  else if (c =? 34)%N then
                    match parse_chars t with
                    | Some (_, r) => Some r
                    | None => None
                    end
                  else if (c =? 91)%N then
                    match expect [93%N] (skip_ws t) with
                    | Some r => Some r
                    | None => accept_elements n t
                    end
                  else if (c =? 123)%N then
                    match expect [125%N] (skip_ws t) with
                    | Some r => Some r
                    | None => accept_members n t
                    end
                  else
                    match scan_number (c :: t) with
                    | Some (_, r) => Some r
                    | None => None
                    end) = Some r) ->
              (length r < length s)%nat /\
              accept_value (length s - length r) s = Some r).
    { intros Hlt Hn. split; [exact Hlt|].
      destruct (length s - length r)%nat as [|n] eqn:En; [lia|].
      cbn [accept_value]. rewrite Es. now apply Hn. }
    destruct (c =? 110)%N.
    { pose proof (expect_length _ _ _ H). apply Hgoal; [lia | now intros]. }
    destruct (c =? 116)%N.
    { pose proof (expect_length _ _ _ H). apply Hgoal; [lia | now intros]. }
    destruct (c =? 102)%N.
    { pose proof (expect_length _ _ _ H). apply Hgoal; [lia | now intros]. }
    destruct (c =? 34)%N.
    { destruct (parse_chars t) as [[str r']|] eqn:E; [|discriminate].
      injection H as ->. apply parse_chars_length in E.
      apply Hgoal; [lia | now intros]. }
    destruct (c =? 91)%N.
    { pose proof (skip_ws_length t) as Ht.
      destruct (expect _ (skip_ws t)) as [r'|] eqn:E.
      - injection H as ->. apply expect_length in E. cbn [length] in E.
        apply Hgoal; [lia | now intros].
      - destruct (IHe _ _ H) as [Hlt Hf].
        apply Hgoal; [lia|]. intros n Hn.
        apply (proj1 (proj2 (accept_more_fuel _)) _ _ n Hf). lia. }
    destruct (c =? 123)%N.
    { pose proof (skip_ws_length t) as Ht.
      destruct (expect _ (skip_ws t)) as [r'|] eqn:E.
      - injection H as ->. apply expect_length in E. cbn [length] in E.
        apply Hgoal; [lia | now intros].
      - destruct (IHm _ _ H) as [Hlt Hf].
        apply Hgoal; [lia|]. intros n Hn.
        apply (proj2 (proj2 (accept_more_fuel _)) _ _ n Hf). lia. }
    destruct (scan_number (c :: t)) as [[l r']|] eqn:E; [|discriminate].
    injection H as ->. apply scan_number_length in E. cbn [length] in E.
    apply Hgoal; [lia | now intros].
  - cbn [accept_elements] in H.
    destruct (accept_value fuel s) as [r1|] eqn:E; [|discriminate].
    destruct (IHv _ _ E) as [Hlt1 Hf1].
    pose proof (skip_ws_length r1) as Hs.
    destruct (skip_ws r1) as [|c r2] eqn:Es; [discriminate|].
    cbn [length] in Hs.
    destruct (c =? 44)%N eqn:Ec.
    + destruct (IHe _ _ H) as [Hlt2 Hf2]. split; [lia|].
      destruct (length s - length r)%nat as [|n] eqn:En; [lia|].
      cbn [accept_elements].
      rewrite (proj1 (accept_more_fuel _) _ _ n Hf1) by lia.
      rewrite Es, Ec.
      apply (proj1 (proj2 (accept_more_fuel _)) _ _ n Hf2). lia.
    + destruct (c =? 93)%N eqn:Ec'; [|discriminate]. injection H as <-.
      split; [lia|].
      destruct (length s - length r2)%nat as [|n] eqn:En; [lia|].
      cbn [accept_elements].
      rewrite (proj1 (accept_more_fuel _) _ _ n Hf1) by lia.
      now rewrite Es, Ec, Ec'.
  - cbn [accept_members] in H.
    pose proof (skip_ws_length s) as Hs.
    destruct (expect _ (skip_ws s)) as [t|] eqn:E0; [|discriminate].
    pose proof (expect_length _ _ _ E0) as Hl0. cbn [length] in Hl0.
    destruct (parse_chars t) as [[k r0]|] eqn:E1; [|discriminate].
    pose proof (parse_chars_length _ _ _ E1) as Hl1.
    pose proof (skip_ws_length r0) as Hs0.
    destruct (expect _ (skip_ws r0)) as [r1|] eqn:E2; [|discriminate].
    pose proof (expect_length _ _ _ E2) as Hl2. cbn [length] in Hl2.
    destruct (accept_value fuel r1) as [r2|] eqn:E; [|discriminate].
    destruct (IHv _ _ E) as [Hlt1 Hf1].
    pose proof (skip_ws_length r2) as Hs2.
    destruct (skip_ws r2) as [|c r3] eqn:Es; [discriminate|].
    cbn [length] in Hs2.
    destruct (c =? 44)%N eqn:Ec.
    + destruct (IHm _ _ H) as [Hlt2 Hf2]. split; [lia|].
      destruct (length s - length r)%nat as [|n] eqn:En; [lia|].
      cbn [accept_members]. rewrite E0, E1, E2.
      rewrite (proj1 (accept_more_fuel _) _ _ n Hf1) by lia.
      rewrite Es, Ec.
      apply (proj2 (proj2 (accept_more_fuel _)) _ _ n Hf2). lia.
    + destruct (c =? 125)%N eqn:Ec'; [|discriminate]. injection H as <-.
      split; [lia|].
      destruct (length s - length r3)%nat as [|n] eqn:En; [lia|].
      cbn [accept_members]. rewrite E0, E1, E2.
      rewrite (proj1 (accept_more_fuel _) _ _ n Hf1) by lia.
      now rewrite Es, Ec, Ec'.
Qed.

(** The fuel [well_formed] takes from the length of the text is enough:
    a text it rejects is accepted with no amount of fuel. *)
Lemma well_formed_fuel (text : jsstring) (fuel : nat) (rest : jsstring) :
  accept_value fuel text = Some rest -> skip_ws rest = [] ->
  well_formed text = true.
Proof.
  intros H Hr. destruct (proj1 (accept_fuel_bound fuel) _ _ H) as [Hlt Hf].
  unfold well_formed.
  rewrite (proj1 (accept_more_fuel _) _ _ (S (length text)) Hf) by lia.
  now apply bool_decide_eq_true.
Qed.

(** Number literals in the notations of the grammar. *)
Lemma number_notations :
  parse (lit "1e3") = Some (VNumber (Int 1000)) /\
  parse (lit "-2.50E+1") = Some (VNumber (Int (-25))) /\
  parse (lit "[1.0, 120e-1, -0]")
    = Some (VArray [VNumber (Int 1); VNumber (Int 12); VNumber (Int 0)]) /\
  (parse (lit "2.5") = None /\ well_formed (lit "2.5") = true) /\
  (parse (lit "-0.5") = None /\ well_formed (lit "-0.5") = true) /\
  (parse (lit "1e-1") = None /\ well_formed (lit "1e-1") = true) /\
  Forall (fun text => well_formed text = false)
    [lit "1."; lit ".5"; lit "01"; lit "1e"; lit "1e+"; lit "+1"; lit "-";
     lit "0x10"; lit "1 2"; lit "NaN"; lit "undefined"; lit "[1,]";
     lit "{oops"].
Proof. vm_compute. repeat split; repeat constructor. Qed.

(** ** C9: the persisted state is read back *)

Import LocalStorage.

(** The object of a state holds strings, integers and booleans under
    distinct keys; only the photo index could be NaN. *)
Lemma lossless_photos (l : list Photo) :
  forallb lossless (List.map photo_value l) = true.
Proof.
  induction l as [|p l IH]; [reflexivity|].
  cbn [List.map forallb]. rewrite IH, andb_true_r.
  unfold photo_value. cbn [lossless List.map fst forallb andb].
  rewrite andb_true_r. vm_compute. reflexivity.
Qed.

Lemma lossless_state (s : State) (i : Z) :
  currentPhotoIndex s = Int i -> lossless (state_value s) = true.
Proof.
  intros Hi. unfold state_value. rewrite Hi.
  cbn [lossless List.map fst forallb andb].
  rewrite lossless_photos. cbn [andb]. vm_compute. reflexivity.
Qed.

(** Different states are different objects. *)
Lemma photo_value_inj (p q : Photo) : photo_value p = photo_value q -> p = q.
Proof.
  destruct p, q. unfold photo_value. cbn. intros H.
  injection H as -> -> -> -> ->. reflexivity.
Qed.

Lemma state_value_inj (s s' : State) :
  state_value s = state_value s' -> s = s'.
Proof.
  destruct s as [v ps n h c i], s' as [v' ps' n' h' c' i'].
  unfold state_value. cbn. intros H.
  injection H as -> Hps -> -> -> ->. f_equal.
  revert ps' Hps. induction ps as [|p ps IH]; intros [|p' ps'] Hps;
    try discriminate Hps; [reflexivity|].
  cbn [List.map] in Hps.
  assert (Hp : photo_value p = photo_value p') by congruence.
  assert (Hps' : List.map photo_value ps = List.map photo_value ps')
    by congruence.
  apply photo_value_inj in Hp. subst p'. f_equal. now apply IH.
Qed.

(** Every transition keeps the photo index an integer within the list:
    photos are only ever appended. *)
Lemma index_in_range_default : index_in_range createInitialState.
Proof. exists 0. split; [reflexivity | cbn; lia]. Qed.

Lemma index_in_range_step (op : Operation) (s : State) :
  index_in_range s -> index_in_range (apply_operation op s).
Proof.
  intros (i & Hi & Hr).
  destruct op as [v| |pid|pid|d|now pd|a| | |]; cbn [apply_operation].
  - unfold navigateTo, setState.
    destruct (negb (includes validViews v)); now exists i.
  - now exists i.
  - exists i. unfold likePhoto, setState. cbn. now rewrite length_map.
  - exists i. unfold toggleFavorite, setState. cbn. now rewrite length_map.
  - destruct (changePhoto_step d s i Hi Hr) as (Hp & j & Hj & Hjr).
    exists j. now rewrite Hp.
  - unfold addPhoto, setState.
    destruct (negb (isValidPhoto _)); [now exists i|].
    cbn [c_url c_caption].
    destruct (pd_url pd); try (now exists i).
    destruct (JS.or (pd_caption pd) (VString defaultCaption));
      try (now exists i).
    exists i. cbn. rewrite length_app. cbn [length]. split; [assumption | lia].
  - now exists i.
  - now exists i.
  - now exists i.
  - now exists i.
Qed.

Lemma reachable_index_in_range (s : State) :
  Reachable s -> index_in_range s.
Proof.
  induction 1 as [|s op _ IH];
    [apply index_in_range_default | now apply index_in_range_step].
Qed.

Lemma serialize_not_empty (v : value) : serialize v <> [].
Proof.
  destruct (serialize_head v) as (c & t & E & _). rewrite E. discriminate.
Qed.

(** C9. For every state s reached from the default state by the
    transition operations (with any strings as view names, ids and
    directions, any integer amount or none, any clock reading and any
    photo data), serialising s gives a text, and deserialising that text
    gives back the object of s and of no other state:
    [deserialize(serialize(s)) = s]. Through the hook: what
    [useLocalStorage] reads on start from the store it last saved s into,
    under any key, is s. *)
Theorem C9_round_trip (s : State) :
  Reachable s ->
  (exists text, serialize_state s = Some text /\
                deserialize text = Some (state_value s) /\
                forall s', deserialize text = Some (state_value s') -> s' = s) /\
  (forall (storage : Storage) (key : jsstring) (initialValue : value),
     readStoredValue (saveStoredValue storage key (state_value s))
       key initialValue = Some (state_value s)).
Proof.
  intros Hs. destruct (reachable_index_in_range s Hs) as (i & Hi & _).
  pose proof (lossless_state s i Hi) as Hl.
  pose proof (fun s' => state_value_inj s s') as Hinj.
  destruct (parse_stringify (state_value s) Hl) as (Hser & Hpar).
  pose proof (serialize_not_empty (state_value s)) as Hne.
  pose proof (well_formed_serialize (state_value s) Hl) as Hwf.
  unfold serialize_state, deserialize.
  generalize dependent (state_value s). intros v Hl Hinj Hser Hpar Hne Hwf.
  split.
  - exists (serialize v).
    split; [exact Hser | split; [exact Hpar|]].
    intros s' H'. rewrite Hpar in H'. apply (inj Some) in H'.
    symmetry. apply Hinj. exact H'.
  - intros storage key initialValue.
    unfold readStoredValue, saveStoredValue, getItem, setItem.
    rewrite Hser, lookup_insert_eq, bool_decide_eq_false_2 by exact Hne.
    cbn [negb]. rewrite Hwf. exact Hpar.
Qed.

Lemma C9_round_trip_witness :
  readStoredValue
    (saveStoredValue ∅ appKey (state_value sampleSession))
    appKey (state_value createInitialState)
  = Some (state_value sampleSession).
Proof.
  apply (proj2 (C9_round_trip sampleSession
                  ltac:(unfold sampleSession;
                        do 4 apply reach_step; apply reach_default))).
Defined.

(** Outside the reachable states the round trip can fail: the NaN that
    [changePhoto] stores on an empty gallery is written as [null] and read
    back as [null]. *)
Lemma NaN_index_is_not_read_back :
  let s := changePhoto (lit "next") emptyGallery in
  exists text v,
    serialize_state s = Some text /\ deserialize text = Some v /\
    v <> state_value s.
Proof.
  eexists _, _. split; [reflexivity | split; [vm_compute; reflexivity|]].
  vm_compute. discriminate.
Qed.

(** ** C10: the frame of resetNaughtyLevel *)

(** C10. [resetNaughtyLevel()] sets [naughtyLevel] to 0 and [showConfetti]
    to false and leaves [heartClicks], [photos] (hence every photo's id,
    url, caption, likes and isFavorite), [currentView] and
    [currentPhotoIndex] as they were. *)
Theorem C10_resetNaughtyLevel_frame (s : State) :
  resetNaughtyLevel s =
    {| currentView := currentView s;
       photos := photos s;
       naughtyLevel := 0;
       heartClicks := heartClicks s;
       showConfetti := false;
       currentPhotoIndex := currentPhotoIndex s |}.
Proof. reflexivity. Qed.


(* ===================================================================== *)
(** * Further properties *)
(* ===================================================================== *)

(** ** The controller's other transitions *)

(** The operations of a list applied in order. *)
Lemma runOps_app (ops1 ops2 : list Operation) (s : State) :
  runOps (ops1 ++ ops2) s = runOps ops2 (runOps ops1 s).
Proof. unfold runOps. apply fold_left_app. Qed.

Lemma runOps_reachable (ops : list Operation) (s : State) :
  Reachable s -> Reachable (runOps ops s).
Proof.
  revert s. induction ops as [|op ops IH]; intros s Hs; [exact Hs|].
  apply IH. now constructor.
Qed.

Lemma goBack_view_valid (s : State) : In (currentView (goBack s)) validViews.
Proof.
  unfold goBack, setState. cbn [currentView].
  destruct (str_eq (currentView s) (lit "naughty")); cbn; tauto.
Qed.

(** X1. [goBack] goes from "naughty" to "gallery" and from every other
    view, valid or not, to "home"; it changes no other field, and two
    [goBack] in a row always end on "home". *)
Theorem goBack_destination (s : State) :
  (currentView s = lit "naughty" -> currentView (goBack s) = lit "gallery") /\
  (currentView s <> lit "naughty" -> currentView (goBack s) = lit "home") /\
  In (currentView (goBack s)) validViews /\
  (photos (goBack s) = photos s /\
   naughtyLevel (goBack s) = naughtyLevel s /\
   heartClicks (goBack s) = heartClicks s /\
   showConfetti (goBack s) = showConfetti s /\
   currentPhotoIndex (goBack s) = currentPhotoIndex s) /\
  goBack (goBack s) =
    {| currentView := lit "home";
       photos := photos s;
       naughtyLevel := naughtyLevel s;
       heartClicks := heartClicks s;
       showConfetti := showConfetti s;
       currentPhotoIndex := currentPhotoIndex s |}.
Proof.
  unfold goBack, setState. cbn [currentView photos naughtyLevel heartClicks
    showConfetti currentPhotoIndex].
  destruct (str_eq (currentView s) (lit "naughty")) eqn:E.
  - apply str_eq_true in E. repeat split; try tauto; cbn; tauto.
  - apply str_eq_false in E. repeat split; try tauto; cbn; tauto.
Qed.

Lemma goBack_destination_witness :
  currentView (goBack (navigateTo (lit "naughty") createInitialState))
  = lit "gallery".
Proof.
  apply (proj1 (goBack_destination
                  (navigateTo (lit "naughty") createInitialState))).
  reflexivity.
Defined.

(** The map of [toggleFavorite], twice. *)
Lemma toggle_twice (photoId : jsstring) (l : list Photo) :
  let toggle := fun photo =>
    if str_eq (id photo) photoId
    then {| id := id photo; url := url photo; caption := caption photo;
            likes := likes photo; isFavorite := negb (isFavorite photo) |}
    else photo in
  List.map toggle (List.map toggle l) = l.
Proof.
  intros toggle. rewrite List.map_map.
  induction l as [|p l IH]; [reflexivity|].
  cbn [List.map]. rewrite IH. f_equal.
  unfold toggle. destruct (str_eq (id p) photoId) eqn:E.
  - cbn [id]. rewrite E. destruct p as [i u c k f]. cbn.
    now rewrite negb_involutive.
  - now rewrite E.
Qed.

(** X2. [toggleFavorite(id)] twice gives back the state it started from,
    whether or not a photo has that id (and even if several do). *)
Theorem toggleFavorite_involutive (s : State) (photoId : jsstring) :
  toggleFavorite photoId (toggleFavorite photoId s) = s.
Proof.
  destruct s as [v ps n h c i]. unfold toggleFavorite, setState.
  cbn [currentView photos naughtyLevel heartClicks showConfetti
       currentPhotoIndex].
  f_equal. apply toggle_twice.
Qed.

(** The sum of the likes of all photos. *)
Lemma totalLikes_cons (p : Photo) (l : list Photo) :
  totalLikes (p :: l) = likes p + totalLikes l.
Proof. reflexivity. Qed.

(** X3. [likePhoto(id)] keeps every photo in its place with its id, url,
    caption and favourite flag, adds exactly 1 to the likes of each photo
    that has the id and 0 to the others; the likes of the gallery grow by
    the number of photos with that id. *)
Theorem likePhoto_likes (s : State) (photoId : jsstring) :
  Forall2 (fun before after =>
             id after = id before /\ url after = url before /\
             caption after = caption before /\
             isFavorite after = isFavorite before /\
             likes after =
               likes before + (if str_eq (id before) photoId then 1 else 0))
    (photos s) (photos (likePhoto photoId s)) /\
  totalLikes (photos (likePhoto photoId s)) =
    totalLikes (photos s) +
    Z.of_nat (length (List.filter (fun p => str_eq (id p) photoId) (photos s))).
Proof.
  unfold likePhoto, setState. cbn [photos].
  induction (photos s) as [|p l [IH1 IH2]]; [split; [constructor | reflexivity]|].
  cbn [List.map List.filter]. split.
  - constructor; [|exact IH1].
    destruct (str_eq (id p) photoId); cbn; repeat split; lia.
  - rewrite !totalLikes_cons, IH2.
    destruct (str_eq (id p) photoId); cbn [likes length]; lia.
Qed.

(** X4. [addPhoto] changes the state exactly when the url is a non-empty
    string and the caption is either falsy (absent, empty, null, 0, false)
    or a string; it then appends one photo, with the clock reading as id,
    the caption given or else the default one, no like and no favourite
    flag, and leaves the photos already there and every other field
    alone. *)
Theorem addPhoto_accepts (now : Z) (photoData : PhotoData) (s : State) :
  let accepted :=
    (exists u, pd_url photoData = VString u /\ u <> []) /\
    (truthy (pd_caption photoData) = false \/
     exists c, pd_caption photoData = VString c) in
  (~ accepted -> addPhoto now photoData s = s) /\
  (accepted ->
   exists u c,
     pd_url photoData = VString u /\
     JS.or (pd_caption photoData) (VString defaultCaption) = VString c /\
     addPhoto now photoData s =
       {| currentView := currentView s;
          photos := photos s ++
            [ {| id := Number_toString now; url := u; caption := c;
                 likes := 0; isFavorite := false |} ];
          naughtyLevel := naughtyLevel s;
          heartClicks := heartClicks s;
          showConfetti := showConfetti s;
          currentPhotoIndex := currentPhotoIndex s |}).
Proof.
  intros accepted. subst accepted. unfold addPhoto, setState, isValidPhoto.
  cbn [c_url c_caption c_id c_likes c_isFavorite].
  destruct (pd_url photoData) as [| |b|n|u|l|o] eqn:Eu;
    try (split; [reflexivity | intros [(u' & Hu & _) _]; discriminate Hu]).
  cbn [typeof_string length_positive andb].
  destruct u as [|ch u].
  { cbn [length Z.of_nat Z.gtb Z.compare]. rewrite andb_false_r. cbn [negb].
    split; [reflexivity | intros [(u' & Hu & Hne) _]; congruence]. }
  cbn [length]. destruct (Z.gtb_spec (Z.of_nat (S (length u))) 0); [|lia].
  rewrite andb_true_r. unfold JS.or.
  destruct (pd_caption photoData) as [| |b|[z|]|c|l|o] eqn:Ec; cbn [truthy].
  - split; [intros Hn; exfalso; apply Hn; split; eauto; congruence|].
    intros _. eexists _, _. repeat split.
  - split; [intros Hn; exfalso; apply Hn; split; eauto; congruence|].
    intros _. eexists _, _. repeat split.
  - destruct b; cbn [typeof_string negb].
    + split; [reflexivity|]. intros [_ [Hc | (c' & Hc)]]; discriminate Hc.
    + split; [intros Hn; exfalso; apply Hn; split; eauto; congruence|].
      intros _. eexists _, _. repeat split.
  - destruct (Z.eqb_spec z 0); cbn [typeof_string negb].
    + split; [intros Hn; exfalso; apply Hn; split; eauto; congruence|].
      intros _. eexists _, _. repeat split.
    + split; [reflexivity|]. intros [_ [Hc | (c' & Hc)]]; discriminate Hc.
  - split; [intros Hn; exfalso; apply Hn; split; eauto; congruence|].
    intros _. eexists _, _. repeat split.
  - destruct c as [|ch' c]; cbn.
    + split; [intros Hn; exfalso; apply Hn; split; eauto; congruence|].
      intros _. eexists _, _. repeat split.
    + split; [intros Hn; exfalso; apply Hn; split; eauto; congruence|].
      intros _. eexists _, _. repeat split.
  - split; [reflexivity|]. intros [_ [Hc | (c' & Hc)]]; discriminate Hc.
  - split; [reflexivity|]. intros [_ [Hc | (c' & Hc)]]; discriminate Hc.
Qed.

Lemma addPhoto_accepts_witness :
  addPhoto 42 {| pd_url := VNumber (Int 7); pd_caption := VUndefined |}
    createInitialState = createInitialState /\
  exists u c,
    VString (lit "/a.jpg") = VString u /\
    JS.or VUndefined (VString defaultCaption) = VString c /\
    addPhoto 42 {| pd_url := VString (lit "/a.jpg");
                   pd_caption := VUndefined |} emptyGallery =
      {| currentView := currentView emptyGallery;
         photos := photos emptyGallery ++
           [ {| id := Number_toString 42; url := u; caption := c;
                likes := 0; isFavorite := false |} ];
         naughtyLevel := naughtyLevel emptyGallery;
         heartClicks := heartClicks emptyGallery;
         showConfetti := showConfetti emptyGallery;
         currentPhotoIndex := currentPhotoIndex emptyGallery |}.
Proof.
  split.
  - apply (proj1 (addPhoto_accepts 42
                    {| pd_url := VNumber (Int 7); pd_caption := VUndefined |}
                    createInitialState)).
    intros [(u & Hu & _) _]. discriminate Hu.
  - apply (proj2 (addPhoto_accepts 42
                    {| pd_url := VString (lit "/a.jpg");
                       pd_caption := VUndefined |}
                    emptyGallery)).
    split.
    + exists (lit "/a.jpg"). split; [reflexivity | discriminate].
    + left. reflexivity.
Defined.

(** ** What no transition does *)

(** One operation keeps the photos it finds, in order, with their ids,
    urls and captions, and appends at most one. *)
Lemma operation_keeps_photos (op : Operation) (s : State) :
  exists added,
    List.map identity (photos (apply_operation op s))
    = List.map identity (photos s) ++ added /\ (length added <= 1)%nat.
Proof.
  destruct op as [v| |pid|pid|d|now pd|a| | |]; cbn [apply_operation];
    try (exists []; split; [now rewrite app_nil_r | cbn; lia]).
  - exists []. rewrite app_nil_r. split; [|cbn; lia].
    unfold navigateTo, setState.
    now destruct (negb (includes validViews v)).
  - exists []. rewrite app_nil_r. split; [|cbn; lia].
    unfold likePhoto, setState. cbn [photos]. rewrite List.map_map.
    apply List.map_ext. intros p. now destruct (str_eq (id p) pid).
  - exists []. rewrite app_nil_r. split; [|cbn; lia].
    unfold toggleFavorite, setState. cbn [photos]. rewrite List.map_map.
    apply List.map_ext. intros p. now destruct (str_eq (id p) pid).
  - unfold addPhoto, setState.
    destruct (negb (isValidPhoto _));
      [exists []; split; [now rewrite app_nil_r | cbn; lia]|].
    cbn [c_url c_caption].
    destruct (pd_url pd);
      try (exists []; split; [now rewrite app_nil_r | cbn; lia]).
    destruct (JS.or (pd_caption pd) (VString defaultCaption));
      try (exists []; split; [now rewrite app_nil_r | cbn; lia]).
    eexists [_]. cbn [photos]. rewrite List.map_app. split; [reflexivity|].
    cbn. lia.
Qed.

(** X5. No sequence of transitions removes, reorders or rewrites a photo:
    the ids, urls and captions of the photos of the starting state are a
    prefix of those of the state reached, which has at most one photo more
    per transition. *)
Theorem photos_only_grow (ops : list Operation) (s : State) :
  List.map identity (photos s)
    `prefix_of` List.map identity (photos (runOps ops s)) /\
  (length (photos s) <= length (photos (runOps ops s))
   <= length (photos s) + length ops)%nat.
Proof.
  revert s. induction ops as [|op ops IH]; intros s.
  - split; [reflexivity | cbn; lia].
  - cbn [runOps fold_left]. fold (runOps ops (apply_operation op s)).
    destruct (IH (apply_operation op s)) as [Hp Hl].
    destruct (operation_keeps_photos op s) as (added & Ha & Hlen).
    assert (Hn : (length (photos (apply_operation op s))
                  = length (photos s) + length added)%nat).
    { apply (f_equal (@length _)) in Ha.
      now rewrite length_app, !length_map in Ha. }
    split.
    + etransitivity; [|exact Hp]. rewrite Ha. now apply prefix_app_r.
    + cbn [length]. lia.
Qed.

(** One operation leaves the view one of the three valid ones. *)
Lemma operation_keeps_view_valid (op : Operation) (s : State) :
  In (currentView s) validViews ->
  In (currentView (apply_operation op s)) validViews.
Proof.
  intros Hv.
  destruct op as [v| |pid|pid|d|now pd|a| | |]; cbn [apply_operation];
    try exact Hv.
  - unfold navigateTo, setState.
    destruct (includes validViews v) eqn:E; cbn [negb]; [|exact Hv].
    now apply includes_In in E.
  - apply goBack_view_valid.
  - unfold addPhoto, setState.
    destruct (negb (isValidPhoto _)); [exact Hv|].
    cbn [c_url c_caption].
    destruct (pd_url pd); try exact Hv.
    destruct (JS.or (pd_caption pd) (VString defaultCaption)); exact Hv.
Qed.

Lemma renderView_valid (s : State) :
  In (currentView s) validViews ->
  renderView s <> FallbackHomeScreen /\
  (renderView s = HomeScreen <-> currentView s = lit "home") /\
  (renderView s = GalleryScreen <-> currentView s = lit "gallery") /\
  (renderView s = NaughtyCardScreen <-> currentView s = lit "naughty").
Proof.
  unfold renderView, validViews. cbn [In].
  intros [<- | [<- | [<- | []]]]; cbn; repeat split; try discriminate;
    intros H; try reflexivity; discriminate H.
Qed.

(** X6. From a state whose view is one of "home", "gallery" and
    "naughty", every sequence of transitions, with any arguments, reaches
    a state whose view is one of the three; [renderView] then shows the
    page of that view and never takes its [default] branch. *)
Theorem view_stays_valid (ops : list Operation) (s : State) :
  In (currentView s) validViews ->
  let s' := runOps ops s in
  In (currentView s') validViews /\
  renderView s' <> FallbackHomeScreen /\
  (renderView s' = HomeScreen <-> currentView s' = lit "home") /\
  (renderView s' = GalleryScreen <-> currentView s' = lit "gallery") /\
  (renderView s' = NaughtyCardScreen <-> currentView s' = lit "naughty").
Proof.
  intros Hv s'. subst s'.
  assert (H : In (currentView (runOps ops s)) validViews).
  { revert s Hv. induction ops as [|op ops IH]; intros s Hv; [exact Hv|].
    apply IH. now apply operation_keeps_view_valid. }
  split; [exact H | now apply renderView_valid].
Qed.

Lemma view_stays_valid_witness :
  renderView
    (runOps [NavigateTo (lit "bogus"); GoBack; NavigateTo (lit "naughty")]
       createInitialState) <> FallbackHomeScreen.
Proof.
  apply (view_stays_valid
           [NavigateTo (lit "bogus"); GoBack; NavigateTo (lit "naughty")]
           createInitialState).
  cbn. tauto.
Defined.

(** ** The meter and the click counter *)

Lemma isValidNaughtyLevel_spec (level : Z) :
  isValidNaughtyLevel level = true <-> 0 <= level <= 100.
Proof.
  unfold isValidNaughtyLevel. rewrite andb_true_iff, Z.leb_le.
  destruct (Z.geb_spec level 0); split; intros; try split; try lia;
    try reflexivity.
Qed.

(** One operation on the meter and on the counter. *)
Lemma operation_meter (op : Operation) (s : State) :
  non_negative_amount op ->
  0 <= naughtyLevel s <= 100 ->
  0 <= naughtyLevel (apply_operation op s) <= 100.
Proof.
  intros Ha Hl.
  destruct op as [v| |pid|pid|d|now pd|a| | |]; cbn [apply_operation];
    try exact Hl.
  - unfold navigateTo, setState.
    now destruct (negb (includes validViews v)).
  - unfold likePhoto, setState. cbn [naughtyLevel]. lia.
  - unfold addPhoto, setState.
    destruct (negb (isValidPhoto _)); [exact Hl|].
    cbn [c_url c_caption].
    destruct (pd_url pd); try exact Hl.
    destruct (JS.or (pd_caption pd) (VString defaultCaption)); exact Hl.
  - unfold increaseNaughtyLevel, setState.
    destruct a as [a|]; cbn [naughtyLevel non_negative_amount] in *; lia.
  - unfold resetNaughtyLevel, setState. cbn [naughtyLevel]. lia.
  - unfold handleHeartClick, setState. cbn [naughtyLevel]. lia.
Qed.

Lemma operation_clicks (op : Operation) (s : State) :
  heartClicks s <= heartClicks (apply_operation op s) <= heartClicks s + 1.
Proof.
  destruct op as [v| |pid|pid|d|now pd|a| | |]; cbn [apply_operation];
    try (cbn; lia).
  - unfold navigateTo, setState.
    destruct (negb (includes validViews v)); cbn; lia.
  - unfold addPhoto, setState.
    destruct (negb (isValidPhoto _)); [lia|].
    cbn [c_url c_caption].
    destruct (pd_url pd); try lia.
    destruct (JS.or (pd_caption pd) (VString defaultCaption)); cbn; lia.
Qed.

(** X7. Starting from a level that [isValidNaughtyLevel] accepts, every
    sequence of transitions whose [increaseNaughtyLevel] amounts are
    omitted or non-negative (as all amounts the views pass are) reaches a
    level that [isValidNaughtyLevel] accepts. *)
Theorem meter_stays_valid (ops : list Operation) (s : State) :
  Forall non_negative_amount ops ->
  isValidNaughtyLevel (naughtyLevel s) = true ->
  isValidNaughtyLevel (naughtyLevel (runOps ops s)) = true.
Proof.
  rewrite !isValidNaughtyLevel_spec. intros Hops. revert s.
  induction Hops as [|op ops Hop _ IH]; intros s Hl; [exact Hl|].
  apply IH. now apply operation_meter.
Qed.

Lemma meter_stays_valid_witness :
  isValidNaughtyLevel
    (naughtyLevel
       (runOps [IncreaseNaughtyLevel (Some 95); HandleHeartClick;
                LikePhoto (lit "1"); IncreaseNaughtyLevel None]
          createInitialState)) = true.
Proof.
  apply (meter_stays_valid
           [IncreaseNaughtyLevel (Some 95); HandleHeartClick;
            LikePhoto (lit "1"); IncreaseNaughtyLevel None]
           createInitialState).
  - repeat constructor; cbn; lia.
  - reflexivity.
Defined.

(** X8. No transition lowers [heartClicks], and none raises it by more
    than 1: after any sequence of transitions the counter lies between
    its starting value and that value plus the number of transitions. *)
Theorem heartClicks_never_decrease (ops : list Operation) (s : State) :
  heartClicks s <= heartClicks (runOps ops s)
    <= heartClicks s + Z.of_nat (length ops).
Proof.
  revert s. induction ops as [|op ops IH]; intros s; [cbn; lia|].
  cbn [runOps fold_left]. fold (runOps ops (apply_operation op s)).
  pose proof (IH (apply_operation op s)).
  pose proof (operation_clicks op s). cbn [length]. lia.
Qed.

(** The level after k increases by a non-negative amount. *)
Lemma increase_iter_level (a : Z) (k : nat) (s : State) :
  0 <= a -> naughtyLevel s <= 100 ->
  naughtyLevel (Nat.iter k (increaseNaughtyLevel (Some a)) s)
  = Z.min (naughtyLevel s + Z.of_nat k * a) 100.
Proof.
  intros Ha Hl. induction k as [|k IH]; [simpl Nat.iter; lia|].
  rewrite Nat.iter_succ. unfold increaseNaughtyLevel at 1, setState.
  cbn [naughtyLevel]. rewrite IH. nia.
Qed.

(** X9. Repeated [increaseNaughtyLevel(a)] with a >= 0 from a level of at
    most 100: after k calls the level is [min(level + k*a, 100)], so the
    meter is full from the first k with level + k*a >= 100 on and stays
    full; the confetti flag is true after the k-th call exactly when that
    call is the one that crosses 50, so it is raised at most once. *)
Theorem increase_saturates (a : Z) (k : nat) (s : State) :
  0 <= a -> naughtyLevel s <= 100 ->
  let after := fun n => Nat.iter n (increaseNaughtyLevel (Some a)) s in
  naughtyLevel (after k) = Z.min (naughtyLevel s + Z.of_nat k * a) 100 /\
  (100 <= naughtyLevel s + Z.of_nat k * a ->
   forall n, (k <= n)%nat -> naughtyLevel (after n) = 100) /\
  (showConfetti (after (S k)) = true <->
   naughtyLevel s + Z.of_nat k * a < 50 <= naughtyLevel s + Z.of_nat (S k) * a) /\
  (forall i j, showConfetti (after (S i)) = true ->
               showConfetti (after (S j)) = true -> i = j).
Proof.
  intros Ha Hl after.
  assert (Hlev : forall n, naughtyLevel (after n)
                           = Z.min (naughtyLevel s + Z.of_nat n * a) 100)
    by (intros n; now apply increase_iter_level).
  assert (Hconf : forall n, showConfetti (after (S n)) = true <->
            naughtyLevel s + Z.of_nat n * a < 50
              <= naughtyLevel s + Z.of_nat (S n) * a).
  { intros n. unfold after. rewrite Nat.iter_succ. fold (after n).
    unfold increaseNaughtyLevel at 1, setState. cbn [showConfetti].
    rewrite Hlev, andb_true_iff, Z.geb_le, Z.ltb_lt. nia. }
  split; [apply Hlev | split; [|split; [apply Hconf|]]].
  - intros Hfull n Hn. rewrite Hlev. nia.
  - intros i j Hi Hj. apply Hconf in Hi. apply Hconf in Hj.
    destruct (Nat.lt_trichotomy i j) as [H | [H | H]]; [|exact H|]; nia.
Qed.

Lemma increase_saturates_witness :
  naughtyLevel (Nat.iter 12 (increaseNaughtyLevel (Some 10)) createInitialState)
  = 100.
Proof.
  apply (proj1 (proj2 (increase_saturates 10 10 createInitialState
                         ltac:(lia) ltac:(cbn; lia)))); cbn; lia.
Defined.

(** ** The controller's derived values *)

(** The fold of [getMostLikedPhoto] from a running maximum. *)
Lemma most_liked_fold (rest : list Photo) (first : Photo) :
  let best := fold_left (fun max photo =>
                if likes photo >? likes max then photo else max) rest first in
  likes first <= likes best /\
  Forall (fun q => likes q <= likes best) rest /\
  (best = first \/
   exists before after,
     rest = before ++ best :: after /\
     likes first < likes best /\
     Forall (fun q => likes q < likes best) before).
Proof.
  revert first. induction rest as [|p rest IH]; intros first; cbn [fold_left].
  - split; [lia | split; [constructor | now left]].
  - destruct (Z.gtb_spec (likes p) (likes first)) as [Hgt | Hle].
    + specialize (IH p). cbv zeta in IH.
      set (best := fold_left _ rest p) in *.
      destruct IH as (H1 & H2 & H3). split; [lia|]. split.
      * constructor; assumption.
      * right. destruct H3 as [E | (before & after & E & Hlt & Hb)].
        -- exists [], rest. rewrite E. repeat split; [lia | constructor].
        -- exists (p :: before), after. split; [now rewrite E at 1|].
           split; [lia|]. constructor; assumption.
    + specialize (IH first). cbv zeta in IH.
      set (best := fold_left _ rest first) in *.
      destruct IH as (H1 & H2 & H3). split; [exact H1|]. split.
      * constructor; [lia | assumption].
      * destruct H3 as [E | (before & after & E & Hlt & Hb)];
          [now left | right].
        exists (p :: before), after. split; [now rewrite E at 1|].
        split; [assumption|]. constructor; [lia | assumption].
Qed.

(** X10. [getMostLikedPhoto] returns [null] exactly on the empty gallery;
    otherwise it returns a photo of the gallery that no photo exceeds in
    likes, and among equals the first in display order: every photo
    before it has strictly fewer likes. *)
Theorem getMostLikedPhoto_spec (s : State) :
  (getMostLikedPhoto s = None <-> photos s = []) /\
  (forall best, getMostLikedPhoto s = Some best ->
     exists before after,
       photos s = before ++ best :: after /\
       Forall (fun q => likes q < likes best) before /\
       Forall (fun q => likes q <= likes best) after).
Proof.
  unfold getMostLikedPhoto. destruct (photos s) as [|first rest].
  - split; [tauto | discriminate].
  - split; [split; discriminate|]. intros best [= <-].
    destruct (most_liked_fold rest first) as (H1 & H2 & H3).
    cbv zeta in *. set (best := fold_left _ rest first) in *.
    destruct H3 as [E | (before & after & E & Hlt & Hb)].
    + exists [], rest. rewrite E in *. repeat split; [constructor | assumption].
    + exists (first :: before), after. split; [now rewrite E at 1|]. split.
      * constructor; assumption.
      * rewrite E in H2. apply Forall_app in H2. destruct H2 as [_ H2].
        now apply Forall_cons in H2.
Qed.

Lemma getMostLikedPhoto_spec_witness :
  exists before after,
    photos (likePhoto (lit "2") createInitialState)
      = before ++ {| id := lit "2"; url := lit "/src/assets/photos/Tabian.jpeg";
                     caption := caption2; likes := 1; isFavorite := false |}
                  :: after /\
    Forall (fun q => likes q < 1) before /\
    Forall (fun q => likes q <= 1) after.
Proof.
  apply (proj2 (getMostLikedPhoto_spec (likePhoto (lit "2") createInitialState))
           {| id := lit "2"; url := lit "/src/assets/photos/Tabian.jpeg";
              caption := caption2; likes := 1; isFavorite := false |}).
  reflexivity.
Defined.

(** X11. After [toggleFavorite(id)], [getFavoritePhotos] lists, in
    display order, the photos that were favourites and do not have the
    id, and those that were not favourites and have it: each with its id,
    url, caption and likes as before, and with the favourite flag set. *)
Theorem getFavoritePhotos_toggleFavorite (s : State) (photoId : jsstring) :
  getFavoritePhotos (toggleFavorite photoId s) =
  List.map
    (fun p => {| id := id p; url := url p; caption := caption p;
                 likes := likes p; isFavorite := true |})
    (List.filter (fun p => xorb (isFavorite p) (str_eq (id p) photoId))
       (photos s)).
Proof.
  unfold getFavoritePhotos, toggleFavorite, setState. cbn [photos].
  induction (photos s) as [|p l IH]; [reflexivity|].
  cbn [List.map List.filter].
  destruct (str_eq (id p) photoId); cbn [isFavorite];
    destruct p as [i u c k [|]];
    cbn [isFavorite id url caption likes xorb negb List.map];
    now rewrite IH.
Qed.

(** X12. The controller's category and the card's label cut the meter at
    the same two levels: "sweet" and "Sweet & Innocent" below 33, "spicy"
    and "Getting Spicy" from 33 to 65, "extra-spicy" and "EXTRA Naughty"
    from 66 on, for negative levels and levels above 100 too. *)
Theorem category_and_label_agree (s : State) :
  let level := naughtyLevel s in
  (level < 33 <->
   getNaughtyCategory s = lit "sweet") /\
  (level < 33 <->
   getCategoryLabel level = [55357; 56839]%N ++ lit " Sweet & Innocent") /\
  (33 <= level < 66 <->
   getNaughtyCategory s = lit "spicy") /\
  (33 <= level < 66 <->
   getCategoryLabel level = [55357; 56847]%N ++ lit " Getting Spicy") /\
  (66 <= level <->
   getNaughtyCategory s = lit "extra-spicy") /\
  (66 <= level <->
   getCategoryLabel level = [55357; 56613]%N ++ lit " EXTRA Naughty").
Proof.
  intros level. unfold getNaughtyCategory, getCategoryLabel. fold level.
  destruct (Z.ltb_spec level 33), (Z.ltb_spec level 66);
    repeat split; intros; try lia; try reflexivity; discriminate.
Qed.

Lemma category_and_label_agree_witness :
  getNaughtyCategory (increaseNaughtyLevel (Some 40) createInitialState)
  = lit "spicy".
Proof.
  apply (proj1 (proj1 (proj2 (proj2 (category_and_label_agree
                  (increaseNaughtyLevel (Some 40) createInitialState)))))).
  cbn. lia.
Defined.

(** ** Persistence *)

(** The hook reads back every lossless value it saved. *)
Lemma read_after_save (storage : Storage) (key : jsstring) (v init : value) :
  lossless v = true ->
  readStoredValue (saveStoredValue storage key v) key init = Some v.
Proof.
  intros Hl. destruct (parse_stringify v Hl) as (Hser & Hpar).
  unfold readStoredValue, saveStoredValue, getItem, setItem.
  rewrite Hser, lookup_insert_eq,
    bool_decide_eq_false_2 by apply serialize_not_empty.
  cbn [negb]. now rewrite well_formed_serialize.
Qed.

(** X13. [useLocalStorage] reads back, under the key it was saved with,
    every value made of null, booleans, integers, strings, arrays and
    objects with distinct keys, whatever the initial value; the value
    [undefined] is stored as the text "undefined", which breaks the
    grammar of JSON, so the hook falls back on the initial value, as it
    does for a key that holds nothing; and a save under another key does
    not change what is read. *)
Theorem useLocalStorage_round_trip (storage : Storage) (key : jsstring)
    (v initialValue : value) :
  (lossless v = true ->
   readStoredValue (saveStoredValue storage key v) key initialValue
   = Some v) /\
  readStoredValue (saveStoredValue storage key VUndefined) key initialValue
    = Some initialValue /\
  (getItem storage key = None ->
   readStoredValue storage key initialValue = Some initialValue) /\
  (forall other w, other <> key ->
     readStoredValue (saveStoredValue storage other w) key initialValue
     = readStoredValue storage key initialValue).
Proof.
  split; [apply read_after_save|]. split; [|split].
  - unfold readStoredValue, saveStoredValue, getItem, setItem.
    cbn [stringify is_undefined]. rewrite lookup_insert_eq. reflexivity.
  - intros Hnone. unfold readStoredValue. now rewrite Hnone.
  - intros other w Hne.
    unfold readStoredValue, saveStoredValue, getItem, setItem.
    now rewrite lookup_insert_ne.
Qed.

Lemma useLocalStorage_round_trip_witness :
  readStoredValue
    (saveStoredValue ∅ (lit "user-name") (VString (lit "Anonymous")))
    (lit "user-name") VNull
  = Some (VString (lit "Anonymous")).
Proof.
  apply (proj1 (useLocalStorage_round_trip ∅ (lit "user-name")
                  (VString (lit "Anonymous")) VNull)).
  reflexivity.
Defined.

(** X14. [useLocalStorageSync]: the event another tab raises by saving a
    lossless value under the same key replaces the stored value by that
    value, whatever it was, and an event for the key whose new text is a
    safe integer, in any notation (as in [1e3]), replaces it by that
    integer; an event for another key, an event of a cleared store, a
    removal and a new text that breaks the grammar of JSON, on which
    [JSON.parse] raises, leave the stored value as it is. *)
Theorem handleStorageChange_sync (key : jsstring) (v old : value) :
  (lossless v = true ->
   handleStorageChange key (savedEvent key v) old = Some v) /\
  (forall e text z, ev_key e = Some key -> ev_newValue e = Some text ->
     parse text = Some (VNumber (Int z)) ->
     - 9007199254740991 <= z <= 9007199254740991 ->
     handleStorageChange key e old = Some (VNumber (Int z))) /\
  (forall other e, other <> key -> ev_key e = Some other ->
     handleStorageChange key e old = Some old) /\
  (forall e, ev_key e = None -> handleStorageChange key e old = Some old) /\
  (forall e, ev_newValue e = None ->
     handleStorageChange key e old = Some old) /\
  (forall e text, ev_newValue e = Some text -> well_formed text = false ->
     handleStorageChange key e old = Some old).
Proof.
  assert (E : str_eq key key = true) by now apply str_eq_true.
  unfold handleStorageChange. repeat split.
  - intros Hl. destruct (parse_stringify v Hl) as (Hser & Hpar).
    unfold savedEvent. cbn [ev_key ev_newValue].
    now rewrite E, Hser, well_formed_serialize.
  - intros e text z -> -> Hp _. now rewrite E, (parse_well_formed _ _ Hp).
  - intros other e Hne ->. apply str_eq_false in Hne. rewrite Hne.
    now destruct (ev_newValue e).
  - now intros e ->.
  - intros e ->. now destruct (ev_key e).
  - intros e text -> Hw. rewrite Hw.
    destruct (ev_key e) as [k|]; [|reflexivity]. now destruct (str_eq k key).
Qed.

Lemma handleStorageChange_sync_witness :
  handleStorageChange appKey
    (savedEvent appKey (state_value createInitialState)) VNull
  = Some (state_value createInitialState) /\
  handleStorageChange appKey
    {| ev_key := Some appKey; ev_newValue := Some (lit " 1e3 ") |} VNull
  = Some (VNumber (Int 1000)) /\
  handleStorageChange appKey
    {| ev_key := Some appKey; ev_newValue := Some (lit "{oops") |} VNull
  = Some VNull.
Proof.
  split; [|split].
  - apply (proj1 (handleStorageChange_sync appKey
                    (state_value createInitialState) VNull)).
    vm_compute. reflexivity.
  - apply (proj1 (proj2 (handleStorageChange_sync appKey VNull VNull))
             _ (lit " 1e3 ") 1000); [reflexivity.. | | lia].
    vm_compute. reflexivity.
  - apply (proj2 (proj2 (proj2 (proj2 (proj2
             (handleStorageChange_sync appKey VNull VNull)))))
             _ (lit "{oops")); vm_compute; reflexivity.
Defined.

(** What [saveToStorage] writes is lossless, for every state. *)
Lemma lossless_stateToSave (s : State) : lossless (stateToSave s) = true.
Proof.
  unfold stateToSave. cbn [lossless List.map fst forallb andb].
  rewrite lossless_photos. cbn [andb]. vm_compute. reflexivity.
Qed.

(** The state [loadFromStorage] sets from what [saveToStorage] wrote. *)
Lemma spread_stateToSave (prevState saved : State) :
  VObject (spread (own_properties (state_value prevState)) (stateToSave saved))
  = state_value
      {| currentView := currentView prevState;
         photos := photos saved;
         naughtyLevel := naughtyLevel saved;
         heartClicks := heartClicks saved;
         showConfetti := showConfetti prevState;
         currentPhotoIndex := currentPhotoIndex prevState |}.
Proof. reflexivity. Qed.

(** X15. [loadFromStorage] after [saveToStorage], for every saved state
    and every current state (NaN index included): the state set has the
    photos, the level and the clicks of the saved state and the view, the
    confetti flag and the photo index of the current one, and the value
    returned is the object that was saved. *)
Theorem loadFromStorage_saveToStorage (storage : Storage)
    (saved prevState : State) :
  loadFromStorage (saveToStorage saved storage) prevState =
  Some (state_value
          {| currentView := currentView prevState;
             photos := photos saved;
             naughtyLevel := naughtyLevel saved;
             heartClicks := heartClicks saved;
             showConfetti := showConfetti prevState;
             currentPhotoIndex := currentPhotoIndex prevState |},
        stateToSave saved).
Proof.
  destruct (parse_stringify _ (lossless_stateToSave saved)) as (Hser & Hpar).
  unfold loadFromStorage, saveToStorage, getItem, setItem.
  rewrite Hser, lookup_insert_eq,
    bool_decide_eq_false_2 by apply serialize_not_empty.
  cbn [negb].
  rewrite well_formed_serialize by apply lossless_stateToSave.
  rewrite Hpar. now rewrite spread_stateToSave.
Qed.

(** X16. [loadFromStorage] sets nothing and returns [null] when nothing
    is stored under the controller's key, in particular right after
    [clearStorage], when the stored text is empty, and when the stored
    text breaks the grammar of JSON, so that [JSON.parse] raises. A
    stored number, which the grammar allows, is not such a case: for a
    safe integer, in any notation, the state is set to a copy of itself
    and the integer is returned. *)
Theorem loadFromStorage_nothing (storage : Storage) (prevState : State) :
  (getItem storage controllerKey = None ->
   loadFromStorage storage prevState
   = Some (state_value prevState, VNull)) /\
  loadFromStorage (clearStorage storage) prevState
    = Some (state_value prevState, VNull) /\
  (forall text, getItem storage controllerKey = Some text ->
     text = [] \/ well_formed text = false ->
     loadFromStorage storage prevState
     = Some (state_value prevState, VNull)) /\
  (forall text z, getItem storage controllerKey = Some text ->
     parse text = Some (VNumber (Int z)) ->
     - 9007199254740991 <= z <= 9007199254740991 ->
     loadFromStorage storage prevState
     = Some (state_value prevState, VNumber (Int z))).
Proof.
  unfold loadFromStorage. repeat split.
  - now intros ->.
  - unfold clearStorage, getItem. now rewrite lookup_delete_eq.
  - intros text -> [-> | Hw]; [reflexivity|]. rewrite Hw.
    now destruct (negb _).
  - intros text z -> Hp _. rewrite (parse_well_formed _ _ Hp), Hp.
    destruct text as [|c text]; [discriminate Hp|].
    rewrite bool_decide_eq_false_2 by discriminate. reflexivity.
Qed.

Lemma loadFromStorage_nothing_witness :
  loadFromStorage (<[controllerKey := lit "{oops"]> ∅) createInitialState
  = Some (state_value createInitialState, VNull) /\
  loadFromStorage (<[controllerKey := lit "1e3"]> ∅) createInitialState
  = Some (state_value createInitialState, VNumber (Int 1000)).
Proof.
  split.
  - apply (proj1 (proj2 (proj2 (loadFromStorage_nothing
                                  (<[controllerKey := lit "{oops"]> ∅)
                                  createInitialState))) (lit "{oops")).
    + unfold getItem. apply lookup_insert_eq.
    + right. vm_compute. reflexivity.
  - apply (proj2 (proj2 (proj2 (loadFromStorage_nothing
                                  (<[controllerKey := lit "1e3"]> ∅)
                                  createInitialState))) (lit "1e3") 1000).
    + unfold getItem. apply lookup_insert_eq.
    + vm_compute. reflexivity.
    + lia.
Defined.

(** X17. The controller's manual save and the hook's automatic save use
    different keys: [saveToStorage] and [clearStorage] do not change what
    the hook reads under the key of [App], and the hook's save does not
    change what [loadFromStorage] finds. *)
Theorem controller_and_hook_keys_apart (storage : Storage)
    (s prevState : State) (v initialValue : value) :
  readStoredValue (saveToStorage s storage) appKey initialValue
    = readStoredValue storage appKey initialValue /\
  readStoredValue (clearStorage storage) appKey initialValue
    = readStoredValue storage appKey initialValue /\
  loadFromStorage (saveStoredValue storage appKey v) prevState
    = loadFromStorage storage prevState.
Proof.
  assert (Hne : controllerKey <> appKey) by (vm_compute; discriminate).
  unfold readStoredValue, loadFromStorage, saveToStorage, clearStorage,
    saveStoredValue, getItem, setItem.
  repeat split.
  - now rewrite lookup_insert_ne.
  - now rewrite lookup_delete_ne.
  - now rewrite lookup_insert_ne by congruence.
Qed.

(** ** sanitizeCaption *)

(** The first code unit of a string, if any, is not white space. *)
Lemma trimStart_split (s : jsstring) :
  exists ws, s = ws ++ trimStart s /\
             Forall (fun c => is_white_space c = true) ws.
Proof.
  induction s as [|c t (ws & E & Hws)]; [now exists []|].
  cbn [trimStart]. destruct (is_white_space c) eqn:Hc.
  - exists (c :: ws). split; [cbn; now f_equal | now constructor].
  - now exists [].
Qed.

Lemma trimStart_clean (s : jsstring) : clean_start (trimStart s).
Proof.
  induction s as [|c t IH]; [exact I|]. cbn [trimStart].
  destruct (is_white_space c) eqn:Hc; [exact IH | exact Hc].
Qed.

Lemma trimStart_of_clean (s : jsstring) : clean_start s -> trimStart s = s.
Proof. destruct s as [|c t]; [reflexivity|]. cbn. now intros ->. Qed.

Lemma trimEnd_split (s : jsstring) :
  exists ws, s = trimEnd s ++ ws /\
             Forall (fun c => is_white_space c = true) ws.
Proof.
  unfold trimEnd. destruct (trimStart_split (rev s)) as (ws & E & Hws).
  exists (rev ws). split.
  - rewrite <- rev_app_distr, <- E. now rewrite rev_involutive.
  - apply Forall_forall. intros c Hc. apply list_elem_of_In, in_rev in Hc.
    rewrite Forall_forall in Hws. apply Hws. now apply list_elem_of_In.
Qed.

Lemma trimEnd_idempotent (s : jsstring) : trimEnd (trimEnd s) = trimEnd s.
Proof.
  unfold trimEnd. rewrite rev_involutive.
  now rewrite (trimStart_of_clean _ (trimStart_clean _)).
Qed.

(** A prefix of a string that does not start with white space does not
    either. *)
Lemma clean_start_prefix (p s : jsstring) :
  p `prefix_of` s -> clean_start s -> clean_start p.
Proof.
  intros [k ->]. destruct p as [|c t]; [intros _; exact I | now cbn].
Qed.

Lemma trimEnd_prefix (s : jsstring) : trimEnd s `prefix_of` s.
Proof. destruct (trimEnd_split s) as (ws & E & _). now exists ws. Qed.

Lemma sanitizeCaption_clean (caption : jsstring) :
  clean_start (sanitizeCaption caption).
Proof.
  unfold sanitizeCaption, trim.
  apply (clean_start_prefix _ (trimStart caption)); [|apply trimStart_clean].
  etransitivity; [apply prefix_take | apply trimEnd_prefix].
Qed.

(** Sanitising a string of at most 200 code units that does not start
    with white space strips its trailing white space and nothing else. *)
Lemma sanitizeCaption_of_clean (s : jsstring) :
  clean_start s -> (length s <= 200)%nat -> sanitizeCaption s = trimEnd s.
Proof.
  intros Hc Hl. unfold sanitizeCaption, trim.
  rewrite (trimStart_of_clean _ Hc). apply take_ge.
  destruct (trimEnd_split s) as (ws & E & _).
  apply (f_equal (@length _)) in E. rewrite length_app in E. lia.
Qed.

(** X18. [sanitizeCaption] returns at most 200 code units, never starting
    with white space, that are a prefix of the caption without its leading
    white space. When the trimmed caption has at most 200 code units the
    result is the trimmed caption and sanitising it again changes
    nothing. Otherwise the cut can leave white space at the end: a second
    pass strips exactly that, and from the second pass on the result is
    stable; some captions do change on the second pass. *)
Theorem sanitizeCaption_spec (caption : jsstring) :
  (length (sanitizeCaption caption) <= 200)%nat /\
  clean_start (sanitizeCaption caption) /\
  sanitizeCaption caption `prefix_of` trimStart caption /\
  ((length (trim caption) <= 200)%nat ->
   sanitizeCaption caption = trim caption /\
   sanitizeCaption (sanitizeCaption caption) = sanitizeCaption caption) /\
  sanitizeCaption (sanitizeCaption caption) = trimEnd (sanitizeCaption caption) /\
  sanitizeCaption (sanitizeCaption (sanitizeCaption caption))
    = sanitizeCaption (sanitizeCaption caption) /\
  (exists other, sanitizeCaption (sanitizeCaption other) <> sanitizeCaption other).
Proof.
  assert (Hlen : forall c, (length (sanitizeCaption c) <= 200)%nat).
  { intros c. unfold sanitizeCaption. rewrite length_take. lia. }
  assert (Htwice : forall c, sanitizeCaption (sanitizeCaption c)
                             = trimEnd (sanitizeCaption c)).
  { intros c. apply sanitizeCaption_of_clean;
      [apply sanitizeCaption_clean | apply Hlen]. }
  split; [apply Hlen|]. split; [apply sanitizeCaption_clean|].
  split; [|split; [|split; [apply Htwice | split]]].
  - unfold sanitizeCaption, trim.
    etransitivity; [apply prefix_take | apply trimEnd_prefix].
  - intros Hl.
    assert (E : sanitizeCaption caption = trim caption)
      by (unfold sanitizeCaption; now apply take_ge).
    split; [exact E|]. rewrite Htwice, E. unfold trim.
    apply trimEnd_idempotent.
  - rewrite !Htwice. apply trimEnd_idempotent.
  - exists (lit "a" ++ replicate 199 32%N ++ lit "b").
    vm_compute. discriminate.
Qed.

Lemma sanitizeCaption_spec_witness :
  sanitizeCaption (lit "  hello  ") = lit "hello".
Proof.
  rewrite (proj1 (proj1 (proj2 (proj2 (proj2
             (sanitizeCaption_spec (lit "  hello  ")))))
             ltac:(vm_compute; lia))).
  reflexivity.
Defined.

(** ** Sequences of touch and mouse events *)

(** Move events with at least one contact point each change neither the
    start cells nor raise. *)
Lemma touchSteps_moves {Handler} (cb : Callbacks Handler) (t : Z)
    (moves : list TouchEvent) (r : Refs) (rest : list TouchStep) :
  Forall (fun e => touches e <> []) moves ->
  exists r',
    touchStartX r' = touchStartX r /\ touchStartY r' = touchStartY r /\
    touchSteps cb t r (List.map TouchMove moves ++ rest)
    = touchSteps cb t r' rest.
Proof.
  intros Hm. revert r. induction Hm as [|e moves He _ IH]; intros r.
  - now exists r.
  - cbn [List.map app touchSteps touchStep]. unfold handleTouchMove.
    destruct (touches e) as [|p ps]; [congruence|]. cbn [head mbind option_bind fst snd].
    destruct (IH {| touchStartX := touchStartX r; touchStartY := touchStartY r;
                    touchEndX := clientX p; touchEndY := clientY p |})
      as (r' & Hx & Hy & E).
    exists r'. cbn [touchStartX touchStartY] in *. repeat split; try assumption.
    rewrite E. now destruct (touchSteps cb t r' rest) as [[? ?]|].
Qed.

(** X19. A gesture seen as its events: a touch start whose first contact
    point is (x0,y0), any number of moves with at least one contact point
    each, and a touch end whose first changed point is (x1,y1). Whatever
    the cells held before, wherever the moves went and however many other
    fingers touch, the callbacks invoked are those of the plain gesture
    from (x0,y0) to (x1,y1): at most one, decided by the first point of
    the start and of the end alone. An event without contact point makes
    its handler raise. *)
Theorem touch_sequence_is_gesture {Handler} (cb : Callbacks Handler) (t : Z)
    (r : Refs) (x0 y0 x1 y1 : Z)
    (fingers0 changed0 fingers1 changed1 : list Touch)
    (moves : list TouchEvent) :
  Forall (fun e => touches e <> []) moves ->
  let start := {| touches := {| clientX := x0; clientY := y0 |} :: fingers0;
                  changedTouches := changed0 |} in
  let finish := {| touches := fingers1;
                   changedTouches :=
                     {| clientX := x1; clientY := y1 |} :: changed1 |} in
  (exists r',
     touchSteps cb t r
       (TouchStart start :: List.map TouchMove moves ++ [TouchEnd finish])
     = Some (r', match gesture cb t r x0 y0 x1 y1 with
                 | Some (Some h) => [h]
                 | _ => []
                 end)) /\
  (forall e rest, touches e = [] ->
     touchSteps cb t r (TouchStart e :: rest) = None /\
     touchSteps cb t r (TouchMove e :: rest) = None) /\
  (forall e rest, changedTouches e = [] ->
     touchSteps cb t r (TouchEnd e :: rest) = None).
Proof.
  intros Hm start finish. subst start. split; [|split].
  - cbn [touchSteps touchStep]. unfold handleTouchStart at 1.
    cbn [touches head mbind option_bind fst snd clientX clientY].
    destruct (touchSteps_moves cb t moves
                {| touchStartX := x0; touchStartY := y0;
                   touchEndX := touchEndX r; touchEndY := touchEndY r |}
                [TouchEnd finish] Hm) as (r' & Hx & Hy & E).
    cbn [touchStartX touchStartY] in Hx, Hy. rewrite E.
    rewrite gesture_unfold.
    cbn [touchSteps touchStep]. unfold handleTouchEnd.
    subst finish.
    cbn [changedTouches head mbind option_bind fst snd
         touchStartX touchStartY touchEndX touchEndY clientX clientY].
    rewrite Hx, Hy. eexists.
    repeat match goal with
    | |- context [?a >? ?b] => destruct (Z.gtb_spec a b)
    end;
    repeat match goal with
    | |- context [match ?o with Some _ => _ | None => _ end] => destruct o
    end; reflexivity.
  - intros e rest He. cbn [touchSteps touchStep].
    unfold handleTouchStart, handleTouchMove. now rewrite He.
  - intros e rest He. cbn [touchSteps touchStep].
    unfold handleTouchEnd. now rewrite He.
Qed.

Lemma touch_sequence_is_gesture_witness :
  exists r',
    touchSteps reporting 50 initialRefs
      [TouchStart (touchStartAt 100 100);
       TouchMove {| touches := [ {| clientX := 300; clientY := 0 |} ];
                    changedTouches := [] |};
       TouchEnd (touchEndAt 40 100)]
    = Some (r', [Left]).
Proof.
  apply (proj1 (touch_sequence_is_gesture reporting 50 initialRefs
                  100 100 40 100 [] [ {| clientX := 100; clientY := 100 |} ]
                  [] []
                  [ {| touches := [ {| clientX := 300; clientY := 0 |} ];
                       changedTouches := [] |} ]
                  ltac:(repeat constructor; discriminate))).
Defined.

(** Mouse moves change nothing. *)
Lemma mouseSteps_moves {Handler} (cb : Callbacks Handler) (t : Z)
    (moves : list (Z * Z)) (r : MouseRefs) (rest : list MouseStep) :
  mouseSteps cb t r (List.map (fun p => MouseMove (fst p) (snd p)) moves ++ rest)
  = mouseSteps cb t r rest.
Proof.
  induction moves as [|p moves IH]; [reflexivity|].
  cbn [List.map app mouseSteps mouseStep fst snd]. rewrite IH.
  now destruct (mouseSteps cb t r rest).
Qed.

(** X20. The mouse handlers of [useSwipeWithMouse]: a button release
    with no drag in progress invokes nothing and changes no cell; a
    press at (x0,y0), any moves, and a release at (x1,y1) invoke what the
    touch gesture from (x0,y0) to (x1,y1) invokes and end the drag, so a
    second release invokes nothing more. *)
Theorem mouse_drag_is_gesture {Handler} (cb : Callbacks Handler) (t : Z)
    (r : MouseRefs) (x0 y0 x1 y1 x2 y2 : Z) (moves : list (Z * Z)) :
  (isDragging r = false ->
   mouseStep cb t r (MouseUp x1 y1) = (r, None)) /\
  (forall touchRefs,
     Some (snd (mouseSteps cb t r
                  (MouseDown x0 y0
                   :: List.map (fun p => MouseMove (fst p) (snd p)) moves
                   ++ [MouseUp x1 y1; MouseUp x2 y2])))
     = (out ← gesture cb t touchRefs x0 y0 x1 y1;
        Some (match out with Some h => [h] | None => [] end))) /\
  isDragging
    (fst (mouseSteps cb t r
            (MouseDown x0 y0
             :: List.map (fun p => MouseMove (fst p) (snd p)) moves
             ++ [MouseUp x1 y1]))) = false.
Proof.
  split; [|split].
  - intros Hd. cbn [mouseStep]. now rewrite Hd.
  - intros touchRefs. cbn [mouseSteps mouseStep fst snd].
    rewrite mouseSteps_moves. rewrite gesture_unfold.
    cbn [mouseSteps mouseStep fst snd isDragging negb startX startY
         mbind option_bind].
    unfold handleMouseUp.
    repeat match goal with
    | |- context [?a >? ?b] => destruct (Z.gtb_spec a b)
    end; cbn [andb];
    repeat match goal with
    | |- context [match ?o with Some _ => _ | None => _ end] => destruct o
    end; reflexivity || lia.
  - cbn [mouseSteps mouseStep fst snd]. rewrite mouseSteps_moves.
    reflexivity.
Qed.

Lemma mouse_drag_is_gesture_witness :
  mouseStep reporting 50 initialMouseRefs (MouseUp 10 500)
  = (initialMouseRefs, None).
Proof.
  apply (proj1 (mouse_drag_is_gesture reporting 50 initialMouseRefs
                  0 0 10 500 0 0 [])).
  reflexivity.
Defined.

(** ** The gallery: gestures, buttons, double tap *)

(** X21. A one-finger gesture on the gallery, from (x0,y0) to (x1,y1).
    With no photo it changes nothing (the empty page has no touch
    handler, so the remainder by zero of [changePhoto] is never reached
    this way). With the photo index in range: a mainly horizontal gesture
    of more than 50 to the left shows the next photo, to the right the
    previous one, both wrapping around; a mainly vertical one of more
    than 50 upwards opens the card; any other gesture, a swipe down
    included, changes nothing. In all cases the photos, the level and
    the clicks are unchanged and the index stays in range. *)
Theorem galleryGesture_spec (s : State) (x0 y0 x1 y1 : Z) :
  let dx := x1 - x0 in
  let dy := y1 - y0 in
  let s' := galleryGesture s x0 y0 x1 y1 in
  (photos s = [] -> s' = s) /\
  (index_in_range s ->
   index_in_range s' /\
   photos s' = photos s /\ naughtyLevel s' = naughtyLevel s /\
   heartClicks s' = heartClicks s /\
   (Z.abs dx > Z.abs dy -> Z.abs dx > 50 -> dx < 0 ->
    s' = changePhoto (lit "next") s) /\
   (Z.abs dx > Z.abs dy -> Z.abs dx > 50 -> dx > 0 ->
    s' = changePhoto (lit "prev") s) /\
   (Z.abs dx <= Z.abs dy -> Z.abs dy > 50 -> dy < 0 ->
    s' = navigateTo (lit "naughty") s /\ currentView s' = lit "naughty" /\
    currentPhotoIndex s' = currentPhotoIndex s) /\
   (dy >= 0 \/ Z.abs dy <= 50 -> Z.abs dx <= Z.abs dy \/ Z.abs dx <= 50 ->
    s' = s)).
Proof.
  intros dx dy s'. subst s'. unfold galleryGesture. split.
  - intros ->. reflexivity.
  - intros Hin. pose proof Hin as (i & Hi & Hr).
    assert (Hne : photos s <> [])
      by (destruct (photos s); cbn in Hr; [lia | discriminate]).
    rewrite bool_decide_eq_false_2 by exact Hne.
    rewrite gesture_unfold. fold dx dy.
    cbn [galleryCallbacks onSwipeLeft onSwipeRight onSwipeUp onSwipeDown].
    destruct (changePhoto_step (lit "next") s i Hi Hr) as (Hpn & jn & Hjn & Hrn).
    destruct (changePhoto_step (lit "prev") s i Hi Hr) as (Hpp & jp & Hjp & Hrp).
    destruct (Z.gtb_spec (Z.abs dx) (Z.abs dy));
      [destruct (Z.gtb_spec (Z.abs dx) 50); [destruct (Z.gtb_spec dx 0)|]
      |destruct (Z.gtb_spec (Z.abs dy) 50); [destruct (Z.gtb_spec dy 0)|]].
    + unfold onPrev. split; [exists jp; now rewrite Hpp|].
      repeat split; try reflexivity; intros; try lia.
    + unfold onNext. split; [exists jn; now rewrite Hpn|].
      repeat split; try reflexivity; intros; try lia.
    + repeat split; try assumption; try reflexivity; intros; lia.
    + repeat split; try assumption; try reflexivity; intros; lia.
    + unfold onOpenNaughty. split; [exact Hin|].
      repeat split; try reflexivity; intros; lia.
    + repeat split; try assumption; try reflexivity; intros; lia.
Qed.

Lemma galleryGesture_spec_witness :
  galleryGesture createInitialState 100 100 40 100
  = changePhoto (lit "next") createInitialState.
Proof.
  apply (proj2 (galleryGesture_spec createInitialState 100 100 40 100));
    [exists 0; split; [reflexivity | cbn; lia] | cbn; lia..].
Defined.

(** X22. The Previous and Next buttons never wrap around: with the photo
    index i in range of n photos, a click on Next gives min(i+1, n-1) and
    a click on Previous gives max(i-1, 0), as each button is disabled at
    its end of the gallery; nothing else changes. *)
Theorem gallery_buttons_do_not_wrap (s : State) (i : Z) :
  currentPhotoIndex s = Int i ->
  0 <= i < Z.of_nat (length (photos s)) ->
  clickNext s =
    {| currentView := currentView s; photos := photos s;
       naughtyLevel := naughtyLevel s; heartClicks := heartClicks s;
       showConfetti := showConfetti s;
       currentPhotoIndex :=
         Int (Z.min (i + 1) (Z.of_nat (length (photos s)) - 1)) |} /\
  clickPrev s =
    {| currentView := currentView s; photos := photos s;
       naughtyLevel := naughtyLevel s; heartClicks := heartClicks s;
       showConfetti := showConfetti s;
       currentPhotoIndex := Int (Z.max (i - 1) 0) |}.
Proof.
  intros Hi Hr. destruct s as [v ps n h c idx]. cbn in Hi, Hr. subst idx.
  unfold clickNext, clickPrev, isLastPhoto, isFirstPhoto, onNext, onPrev,
    changePhoto, setState.
  cbn [currentView photos naughtyLevel heartClicks showConfetti
       currentPhotoIndex num_eq sub add].
  set (len := Z.of_nat (length ps)) in *.
  change (str_eq (lit "next") (lit "next")) with true.
  change (str_eq (lit "prev") (lit "next")) with false.
  change (str_eq (lit "prev") (lit "prev")) with true.
  cbv iota. split.
  - destruct (Z.eqb_spec i (len - 1)).
    + f_equal. f_equal. lia.
    + rewrite rem_Int_mod by lia. f_equal. f_equal.
      rewrite Z.mod_small by lia. lia.
  - destruct (Z.eqb_spec i 0).
    + f_equal. f_equal. lia.
    + rewrite rem_Int_mod by lia. f_equal. f_equal.
      replace (i - 1 + len) with (i - 1 + 1 * len) by lia.
      rewrite Z.mod_add by lia. rewrite Z.mod_small by lia. lia.
Qed.

Lemma gallery_buttons_do_not_wrap_witness :
  currentPhotoIndex (clickPrev createInitialState) = Int 0.
Proof.
  rewrite (proj2 (gallery_buttons_do_not_wrap createInitialState 0
                    eq_refl ltac:(cbn; lia))).
  reflexivity.
Defined.

(** With distinct ids, the map of [likePhoto] changes the photo at the
    position of the id and no other. *)
Lemma like_at_position (l : list Photo) (k : nat) (p : Photo) :
  NoDup (List.map id l) -> l !! k = Some p ->
  List.map (fun photo =>
    if str_eq (id photo) (id p)
    then {| id := id photo; url := url photo; caption := caption photo;
            likes := likes photo + 1; isFavorite := isFavorite photo |}
    else photo) l
  = <[k := {| id := id p; url := url p; caption := caption p;
              likes := likes p + 1; isFavorite := isFavorite p |}]> l.
Proof.
  revert k. induction l as [|q l IH]; intros k Hnd Hk; [discriminate|].
  cbn [List.map] in Hnd. apply NoDup_cons in Hnd. destruct Hnd as [Hq Hnd].
  destruct k as [|k]; cbn in Hk.
  - injection Hk as ->. cbn [List.map]. cbn.
    rewrite (proj2 (str_eq_true (id p) (id p)) eq_refl). f_equal.
    apply map_like_no_match. apply Forall_forall. intros x Hx E.
    apply Hq. rewrite <- E. apply list_elem_of_In, in_map.
    now apply list_elem_of_In.
  - cbn [List.map]. cbn. rewrite (IH k Hnd Hk).
    destruct (str_eq (id q) (id p)) eqn:E; [|reflexivity].
    apply str_eq_true in E. exfalso. apply Hq. rewrite E.
    apply list_elem_of_In, in_map, list_elem_of_In.
    now apply list_elem_of_lookup_2 with k.
Qed.

(** X23. A double tap (or the Like button) with the photo index in range
    and distinct photo ids: the photo shown gets one more like, every
    other photo is untouched, the clicks grow by 1 and the level by 5 up
    to 100. Without a photo at the index (index out of range or NaN)
    reading its id raises. *)
Theorem handleDoubleTap_likes_current (s : State) :
  (currentPhoto s = None -> handleDoubleTap s = None) /\
  (forall p k,
     NoDup (List.map id (photos s)) ->
     currentPhotoIndex s = Int (Z.of_nat k) -> photos s !! k = Some p ->
     handleDoubleTap s =
       Some {| currentView := currentView s;
               photos :=
                 <[k := {| id := id p; url := url p; caption := caption p;
                           likes := likes p + 1;
                           isFavorite := isFavorite p |}]> (photos s);
               naughtyLevel := Z.min (naughtyLevel s + 5) 100;
               heartClicks := heartClicks s + 1;
               showConfetti := showConfetti s;
               currentPhotoIndex := currentPhotoIndex s |}).
Proof.
  unfold handleDoubleTap. split.
  - now intros ->.
  - intros p k Hnd Hi Hk. unfold currentPhoto. rewrite Hi.
    destruct (Z.ltb_spec (Z.of_nat k) 0); [lia|].
    rewrite Nat2Z.id, Hk. cbn [mbind option_bind].
    unfold onLike, likePhoto, setState. rewrite Hi.
    now rewrite (like_at_position _ k p Hnd Hk).
Qed.

Lemma handleDoubleTap_likes_current_witness :
  let s := changePhoto (lit "next") createInitialState in
  handleDoubleTap s =
    Some {| currentView := currentView s;
            photos :=
              <[1%nat := {| id := lit "2";
                            url := lit "/src/assets/photos/Tabian.jpeg";
                            caption := caption2; likes := 0 + 1;
                            isFavorite := false |}]> (photos s);
            naughtyLevel := Z.min (naughtyLevel s + 5) 100;
            heartClicks := heartClicks s + 1;
            showConfetti := showConfetti s;
            currentPhotoIndex := currentPhotoIndex s |}.
Proof.
  intros s.
  apply (proj2 (handleDoubleTap_likes_current s)
           {| id := lit "2"; url := lit "/src/assets/photos/Tabian.jpeg";
              caption := caption2; likes := 0; isFavorite := false |} 1%nat).
  - apply (bool_decide_unpack _). vm_compute. exact I.
  - reflexivity.
  - reflexivity.
Defined.

(** ** The card *)

(** One handler of the card on the app state. *)
Lemma cardStep_state (a : CardAction) (c : CardState) (s : State) :
  naughtyLevel s <= 100 ->
  let s' := snd (cardStep a c s) in
  Z.min (naughtyLevel s + 3) 100 <= naughtyLevel s' <= 100 /\
  heartClicks s' =
    heartClicks s + (match a with HeartSpam => 1 | _ => 0 end) /\
  photos s' = photos s /\ currentView s' = currentView s /\
  currentPhotoIndex s' = currentPhotoIndex s.
Proof.
  intros Hl. destruct a; cbn; repeat split; lia.
Qed.

(** X24. The handlers of the card (reveal, another message, an answer,
    the heart) in any order and number, from a level between 0 and 100:
    each raises the level by at least 3 until it is capped, so the level
    never decreases, never exceeds 100, is at least
    min(level + 3 * number of actions, 100), and is exactly 100 after any
    34 actions; the clicks grow by the number of heart actions; photos,
    view and photo index are left alone. *)
Theorem card_fills_the_meter (actions : list CardAction) (c : CardState)
    (s : State) :
  0 <= naughtyLevel s <= 100 ->
  let s' := snd (cardSteps actions c s) in
  naughtyLevel s <= naughtyLevel s' <= 100 /\
  Z.min (naughtyLevel s + 3 * Z.of_nat (length actions)) 100
    <= naughtyLevel s' /\
  ((34 <= length actions)%nat -> naughtyLevel s' = 100) /\
  heartClicks s' =
    heartClicks s +
    Z.of_nat (length (List.filter
                        (fun a => match a with HeartSpam => true | _ => false end)
                        actions)) /\
  photos s' = photos s /\ currentView s' = currentView s /\
  currentPhotoIndex s' = currentPhotoIndex s.
Proof.
  intros Hl s'. subst s'.
  enough (H : naughtyLevel s <= naughtyLevel (snd (cardSteps actions c s)) <= 100 /\
              Z.min (naughtyLevel s + 3 * Z.of_nat (length actions)) 100
                <= naughtyLevel (snd (cardSteps actions c s)) /\
              heartClicks (snd (cardSteps actions c s)) =
                heartClicks s +
                Z.of_nat (length (List.filter
                  (fun a => match a with HeartSpam => true | _ => false end)
                  actions)) /\
              photos (snd (cardSteps actions c s)) = photos s /\
              currentView (snd (cardSteps actions c s)) = currentView s /\
              currentPhotoIndex (snd (cardSteps actions c s))
                = currentPhotoIndex s).
  { destruct H as (H1 & H2 & H3 & H4 & H5 & H6).
    repeat split; try assumption; try lia. }
  unfold cardSteps. revert c s Hl.
  induction actions as [|a actions IH]; intros c s Hl.
  - cbn. repeat split; lia.
  - cbn [fold_left fst snd length List.filter].
    destruct (cardStep a c s) as [c1 s1] eqn:E.
    pose proof (cardStep_state a c s ltac:(lia)) as Hstep.
    rewrite E in Hstep. cbn [snd] in Hstep.
    destruct Hstep as (Hs1 & Hs2 & Hs3 & Hs4 & Hs5).
    destruct (IH c1 s1 ltac:(lia)) as (H1 & H2 & H3 & H4 & H5 & H6).
    cbn [fst snd] in *.
    rewrite H4, H5, H6, H3, Hs2, Hs3, Hs4, Hs5.
    repeat split; try lia.
    destruct a; cbn [length]; lia.
Qed.

Lemma card_fills_the_meter_witness :
  naughtyLevel
    (snd (cardSteps (replicate 34 HeartSpam)
            {| isRevealed := false; selectedAnswer := None |}
            createInitialState)) = 100.
Proof.
  apply (proj1 (proj2 (proj2 (card_fills_the_meter (replicate 34 HeartSpam)
           {| isRevealed := false; selectedAnswer := None |}
           createInitialState ltac:(cbn; lia)))));
    cbn; lia.
Defined.

(** ** Photo ids *)

(** [addPhoto] either returns the state or appends a photo whose id is
    the clock reading. *)
Lemma addPhoto_cases (now : Z) (pd : PhotoData) (s : State) :
  addPhoto now pd s = s \/
  exists p, id p = Number_toString now /\
            photos (addPhoto now pd s) = photos s ++ [p].
Proof.
  unfold addPhoto, setState.
  destruct (negb (isValidPhoto _)); [now left|].
  cbn [c_url c_caption].
  destruct (pd_url pd); try (now left).
  destruct (JS.or (pd_caption pd) (VString defaultCaption)); try (now left).
  right. eexists. split; [|reflexivity]. reflexivity.
Qed.

(** X25. Photo ids stay distinct under every transition, provided the
    clock reading that [addPhoto] takes as id is not the id of a photo
    already there; [addPhoto] itself does not check this: two accepted
    calls at the same clock reading give two photos with the same id. *)
Theorem photo_ids_distinct (op : Operation) (s : State) :
  (NoDup (List.map id (photos s)) ->
   (forall now pd, op = AddPhoto now pd ->
      Number_toString now ∉ List.map id (photos s)) ->
   NoDup (List.map id (photos (apply_operation op s)))) /\
  (forall now pd1 pd2,
     addPhoto now pd1 s <> s ->
     addPhoto now pd2 (addPhoto now pd1 s) <> addPhoto now pd1 s ->
     ~ NoDup (List.map id (photos (addPhoto now pd2 (addPhoto now pd1 s))))).
Proof.
  split.
  - intros Hnd Hfresh.
    destruct op as [v| |pid|pid|d|now pd|a| | |]; cbn [apply_operation];
      try exact Hnd.
    + unfold navigateTo, setState.
      now destruct (negb (includes validViews v)).
    + unfold likePhoto, setState. cbn [photos]. rewrite List.map_map.
      erewrite List.map_ext; [exact Hnd|].
      intros p. now destruct (str_eq (id p) pid).
    + unfold toggleFavorite, setState. cbn [photos]. rewrite List.map_map.
      erewrite List.map_ext; [exact Hnd|].
      intros p. now destruct (str_eq (id p) pid).
    + destruct (addPhoto_cases now pd s) as [-> | (p & Hid & ->)];
        [exact Hnd|].
      rewrite List.map_app. cbn [List.map]. rewrite Hid.
      apply NoDup_app. split; [exact Hnd|]. split.
      * intros x Hx Hx'. apply list_elem_of_singleton in Hx'. subst x.
        now apply (Hfresh now pd).
      * apply NoDup_singleton.
  - intros now pd1 pd2 H1 H2 Hnd.
    destruct (addPhoto_cases now pd1 s) as [E | (p & Hp & E1)]; [congruence|].
    destruct (addPhoto_cases now pd2 (addPhoto now pd1 s))
      as [E | (q & Hq & E2)]; [congruence|].
    rewrite E2, E1, !List.map_app in Hnd. cbn [List.map] in Hnd.
    rewrite Hp, Hq, <- app_assoc in Hnd. cbn [app] in Hnd.
    apply NoDup_app in Hnd. destruct Hnd as (_ & _ & Hnd).
    apply NoDup_cons in Hnd. destruct Hnd as [Hnd _].
    apply Hnd. apply list_elem_of_singleton. reflexivity.
Qed.

Lemma photo_ids_distinct_witness :
  NoDup (List.map id
           (photos (apply_operation
                      (AddPhoto 1700000000000
                         {| pd_url := VString (lit "/a.jpg");
                            pd_caption := VUndefined |})
                      createInitialState))).
Proof.
  apply (proj1 (photo_ids_distinct
                  (AddPhoto 1700000000000
                     {| pd_url := VString (lit "/a.jpg");
                        pd_caption := VUndefined |})
                  createInitialState)).
  - apply (bool_decide_unpack _). vm_compute. exact I.
  - intros now pd [= <- <-]. apply (bool_decide_unpack _). vm_compute.
    exact I.
Defined.

(** ** createCustomMessage *)

(** A replacement text without dollar sign stands for itself. *)
Lemma GetSubstitution_plain (matched before after replacement : jsstring) :
  36%N ∉ replacement ->
  GetSubstitution matched before after replacement = replacement.
Proof.
  induction replacement as [|c rest IH]; intros H; [reflexivity|].
  cbn [GetSubstitution]. apply not_elem_of_cons in H. destruct H as [Hc Hr].
  destruct (N.eqb_spec c 36); [congruence|]. now rewrite IH.
Qed.

(** Text without opening brace is copied. *)
Lemma replace_placeholders_no_brace (replacement a : jsstring) :
  123%N ∉ a ->
  forall before s,
    replace_placeholders replacement before (a ++ s)
    = a ++ replace_placeholders replacement (before ++ a) s.
Proof.
  induction a as [|c a IH]; intros H before s.
  - now rewrite app_nil_r.
  - apply not_elem_of_cons in H. destruct H as [Hc Ha].
    cbn [app]. change (c :: a ++ s) with (c :: (a ++ s)).
    assert (E : forall t, replace_placeholders replacement before (c :: t)
                          = c :: replace_placeholders replacement (before ++ [c]) t).
    { intros t. cbn [replace_placeholders].
      destruct t as [|c1 [|c2 [|c3 [|c4 [|c5 rest]]]]]; try reflexivity.
      destruct (str_eq _ placeholder) eqn:Eq; [|reflexivity].
      apply str_eq_true in Eq. vm_compute in Eq.
      assert (c = 123%N) by congruence. congruence. }
    rewrite E, IH by assumption. now rewrite <- app_assoc.
Qed.

Lemma replace_placeholders_at (replacement before rest : jsstring) :
  replace_placeholders replacement before (placeholder ++ rest)
  = GetSubstitution placeholder before rest replacement
    ++ replace_placeholders replacement (before ++ placeholder) rest.
Proof. reflexivity. Qed.

(** The replacement text [$&] puts back what was matched. *)
Lemma replace_placeholders_matched_len (n : nat) :
  forall before s, (length s <= n)%nat ->
    replace_placeholders [36; 38]%N before s = s.
Proof.
  induction n as [|n IH]; intros before s Hlen.
  - destruct s; [reflexivity | cbn in Hlen; lia].
  - destruct s as [|c t]; [reflexivity|]. cbn [length] in Hlen.
    assert (Hstep : c :: replace_placeholders [36; 38]%N (before ++ [c]) t
                    = c :: t) by (f_equal; apply IH; lia).
    cbn [replace_placeholders].
    destruct t as [|c1 [|c2 [|c3 [|c4 [|c5 rest]]]]]; try exact Hstep.
    destruct (str_eq _ placeholder) eqn:Eq; [|exact Hstep].
    apply str_eq_true in Eq. vm_compute in Eq.
    injection Eq as -> -> -> -> -> ->.
    cbn [GetSubstitution N.eqb Pos.eqb]. rewrite app_nil_r.
    rewrite IH by (cbn [length] in Hlen; lia). reflexivity.
Qed.

Lemma replace_placeholders_matched (before s : jsstring) :
  replace_placeholders [36; 38]%N before s = s.
Proof. now apply (replace_placeholders_matched_len (length s)). Qed.

(** X26. [createCustomMessage(name, template)] with a name that has no
    dollar sign: a template without opening brace is returned as it is,
    and in a template [a{name}b] whose part [a] has no opening brace the
    placeholder is replaced by the name and the replacing goes on in [b],
    where the name just inserted is not scanned again. A dollar sign in
    the name is a replacement pattern: the name [$&] leaves every
    template unchanged, and the name [$$] inserts a single dollar sign. *)
Theorem createCustomMessage_spec (name template a b : jsstring) :
  (123%N ∉ template -> createCustomMessage name template = template) /\
  (36%N ∉ name -> 123%N ∉ a ->
   createCustomMessage name (a ++ placeholder ++ b)
   = a ++ name ++ replace_placeholders name (a ++ placeholder) b) /\
  (36%N ∉ name -> 123%N ∉ a -> 123%N ∉ b ->
   createCustomMessage name (a ++ placeholder ++ b) = a ++ name ++ b) /\
  createCustomMessage [36; 38]%N template = template /\
  (123%N ∉ a -> 123%N ∉ b ->
   createCustomMessage [36; 36]%N (a ++ placeholder ++ b) = a ++ [36%N] ++ b).
Proof.
  unfold createCustomMessage.
  assert (Hcopy : forall r before s,
            123%N ∉ s -> replace_placeholders r before s = s).
  { intros r before s Hs.
    pose proof (replace_placeholders_no_brace r s Hs before []) as H.
    rewrite !app_nil_r in H. exact H. }
  split; [apply Hcopy|]. split; [|split; [|split]].
  - intros Hn Ha.
    rewrite replace_placeholders_no_brace, replace_placeholders_at by assumption.
    now rewrite GetSubstitution_plain.
  - intros Hn Ha Hb.
    rewrite replace_placeholders_no_brace, replace_placeholders_at by assumption.
    now rewrite GetSubstitution_plain, Hcopy.
  - apply replace_placeholders_matched.
  - intros Ha Hb.
    rewrite replace_placeholders_no_brace, replace_placeholders_at by assumption.
    now rewrite Hcopy.
Qed.

Lemma createCustomMessage_spec_witness :
  createCustomMessage (lit "Ana") (lit "Hi {name}!") = lit "Hi Ana!".
Proof.
  apply (proj1 (proj2 (proj2 (createCustomMessage_spec
                  (lit "Ana") [] (lit "Hi ") (lit "!")))));
    apply (bool_decide_unpack _); vm_compute; exact I.
Defined.
